(** * uspsaddr: a shallow embedding of the USPS address-validation client

    The development follows the Go package file by file:
    - [types.go]  : the public data model and [Error.Error];
    - [token.go]  : the OAuth2 token manager ([getToken], [refreshToken]),
                    first as sequential code over an explicit world, then
                    as a pool of goroutines interleaved under the
                    [sync.RWMutex] of the manager;
    - [client.go] : [ValidateAddress], [convertResponse], [convertError],
                    [generateUserMessage].

    Go strings are byte sequences: they are [string] here, [len] is
    [String.length].  [time.Duration] is a signed 64-bit count of
    nanoseconds whose arithmetic wraps around.  The [fmt.Printf] debugging
    output of [client.go] writes to standard output only and is left out. *)

From Stdlib Require Import ZArith Lia Ascii.
From stdpp Require Import base option list strings.

Local Open Scope string_scope.
Local Open Scope Z_scope.
Local Open Scope list_scope.

(** ** types.go *)

Module Address.
Record t : Type := mk {
  Firm : string;
  StreetAddress : string;
  StreetAddressAbbreviation : string;
  SecondaryAddress : string;
  City : string;
  CityAbbreviation : string;
  State : string;
  ZIPCode : string;
  ZIPPlus4 : string;
  Urbanization : string
}.
Definition zero : t := mk "" "" "" "" "" "" "" "" "" "".
End Address.

(** [convertResponse] fills [UserMessage] next to [Code] and [Text]. *)
Module Correction.
Record t : Type := mk {
  Code : string;
  Text : string;
  UserMessage : string
}.
End Correction.

Module Match.
Record t : Type := mk {
  Code : string;
  Text : string
}.
End Match.

Module AdditionalInfo.
Record t : Type := mk {
  DeliveryPoint : string;
  CarrierRoute : string;
  DPVConfirmation : string;
  DPVCMRA : string;
  Business : string;
  CentralDeliveryPoint : string;
  Vacant : string
}.
End AdditionalInfo.

Module ValidationResult.
Record t : Type := mk {
  Address : Address.t;
  Corrections : list Correction.t;
  Matches : list Match.t;
  Warnings : list string;
  AdditionalInfo : option AdditionalInfo.t
}.
End ValidationResult.

Module ErrorSource.
Record t : Type := mk {
  Parameter_ : string;
  Example_ : string
}.
End ErrorSource.

Module Error.
Record t : Type := mk {
  Status : string;
  Code : string;
  Title : string;
  Detail : string;
  Source : option ErrorSource.t
}.

(** [func (e *Error) Error() string] *)
Definition Error (e : t) : string :=
  if negb (String.eqb (Detail e) "") then Detail e
  else if negb (String.eqb (Title e) "") then Title e
  else "USPS API error".
End Error.

(** ** Results and errors *)

(** The errors the package returns: those it builds with [fmt.Errorf], one
    constructor per call site carrying the data of the message, and the
    [*Error] values of [convertError]. *)
Inductive error : Type :=
| ErrNewRequest                 (* "failed to create token request: %w" *)
| ErrTokenDo                    (* "token request failed: %w" *)
| ErrTokenStatus (status : Z)   (* "token request failed with status %d" *)
| ErrTokenDecode                (* "failed to decode token response: %w" *)
| ErrEmptyToken                 (* "received empty access token" *)
| ErrAccessToken (cause : error) (* "failed to get access token: %w" *)
| ErrTransport                  (* the transport's own failure *)
| ErrNilAddress                 (* "address cannot be nil" *)
| ErrStreetRequired             (* "street address is required" *)
| ErrStateRequired              (* "2 letter state abbreviation is required" *)
| ErrRequestFailed (cause : error) (* "USPS API request failed: %w" *)
| ErrUnexpectedStatus (status : Z) (* "unexpected status code: %d" *)
| ErrEmptyResponse              (* "unexpected empty response" *)
| ErrAPI (e : Error.t).         (* a [*Error] *)

Inductive result (A : Type) : Type :=
| Ok (v : A)
| Err (e : error).
Arguments Ok {A} v.
Arguments Err {A} e.

(** ** State passing *)

Definition ST (W A : Type) : Type := W -> A * W.

Definition ret {W A} (a : A) : ST W A := fun w => (a, w).
Definition bind {W A B} (m : ST W A) (k : A -> ST W B) : ST W B :=
  fun w => let '(a, w') := m w in k a w'.

Notation "'let*' x ':=' m 'in' k" := (bind m (fun x => k))
  (at level 10, x name, m at level 100, k at level 200).
Notation "m ';;' k" := (bind m (fun _ => k))
  (at level 100, k at level 200, right associativity).

(** ** time *)

(** An instant, in nanoseconds from the zero [time.Time]. *)
Definition Time : Type := Z.
(** [time.Duration]: int64 nanoseconds. *)
Definition Duration : Type := Z.

Definition wrap64 (z : Z) : Z := (z + 2 ^ 63) mod 2 ^ 64 - 2 ^ 63.

Definition Second : Duration := 1000000000.
Definition Minute : Duration := 60 * Second.
Definition Hour : Duration := 60 * Minute.

Definition dmul (a b : Duration) : Duration := wrap64 (a * b).
Definition dsub (a b : Duration) : Duration := wrap64 (a - b).

(** [t.Before(u)] and [t.Add(d)]. *)
Definition Before (t u : Time) : bool := t <? u.
Definition Add (t : Time) (d : Duration) : Time := t + d.

(** ** token.go *)

Definition nonempty (s : string) : bool := negb (String.eqb s "").

Module Token.

Record tokenManager : Type := mkTokenManager {
  clientID : string;
  clientSecret : string;
  tokenURL : string;
  accessToken : string;
  expiresAt : Time;
  refreshBuffer : Duration
}.

Record tokenResponse : Type := mkTokenResponse {
  AccessToken : string;
  TokenType : string;
  ExpiresIn : Z
}.

(** The body of a token response as it arrives: not JSON of the expected
    shape, or an object whose three members may each be absent. *)
Inductive tokenBody : Type :=
| Malformed
| JSONObject (access_token : option string) (token_type : option string)
             (expires_in : option Z).

(** [json.NewDecoder(resp.Body).Decode(&tokenResp)]: an absent member
    leaves the field at its zero value; a number that does not fit [int]
    (64 bits) is a decoding error. *)
Definition Decode (b : tokenBody) : option tokenResponse :=
  match b with
  | Malformed => None
  | JSONObject at_ tt_ ei =>
      let n := default 0 ei in
      if (- 2 ^ 63 <=? n) && (n <? 2 ^ 63)
      then Some (mkTokenResponse (default "" at_) (default "" tt_) n)
      else None
  end.

(** What [tm.httpClient.Do(req)] yields. *)
Inductive httpResult : Type :=
| DoError
| Response (StatusCode : Z) (Body : tokenBody).

(** The request [refreshToken] posts: the URL and the three members of
    the JSON body. *)
Record tokenRequest : Type := mkTokenRequest {
  req_url : string;
  req_client_id : string;
  req_client_secret : string;
  req_grant_type : string
}.

Definition zeroTime : Time := 0.

Definition newTokenManager (clientID clientSecret tokenURL : string)
  : tokenManager :=
  {| clientID := clientID;
     clientSecret := clientSecret;
     tokenURL := tokenURL;
     accessToken := "";
     expiresAt := zeroTime;
     refreshBuffer := 5 * Minute |}.

(** The test both [getToken] and [refreshToken] make:
    [tm.accessToken != "" && time.Now().Before(tm.expiresAt)]. *)
Definition valid (tm : tokenManager) (now : Time) : bool :=
  nonempty (accessToken tm) && Before now (expiresAt tm).

(** Lines 115-118: the validity window of a decoded response. *)
Definition window (r : tokenResponse) : Duration :=
  let expiresIn := dmul (ExpiresIn r) Second in
  if expiresIn =? 0 then dmul 1 Hour else expiresIn.

(** Line 114, [tm.accessToken = tokenResp.AccessToken]. *)
Definition setAccessToken (tm : tokenManager) (token : string)
  : tokenManager :=
  {| clientID := clientID tm;
     clientSecret := clientSecret tm;
     tokenURL := tokenURL tm;
     accessToken := token;
     expiresAt := expiresAt tm;
     refreshBuffer := refreshBuffer tm |}.

(** Line 119, [tm.expiresAt = time.Now().Add(expiresIn - tm.refreshBuffer)],
    at the reading [now] of the clock. *)
Definition setExpiresAt (tm : tokenManager) (expiresIn : Duration)
  (now : Time) : tokenManager :=
  {| clientID := clientID tm;
     clientSecret := clientSecret tm;
     tokenURL := tokenURL tm;
     accessToken := accessToken tm;
     expiresAt := Add now (dsub expiresIn (refreshBuffer tm));
     refreshBuffer := refreshBuffer tm |}.

(** Lines 99-111: what a response is worth. *)
Definition classify (h : httpResult) : result tokenResponse :=
  match h with
  | DoError => Err ErrTokenDo
  | Response status body =>
      if negb (status =? 200) then Err (ErrTokenStatus status)
      else match Decode body with
           | None => Err ErrTokenDecode
           | Some r =>
               if String.eqb (AccessToken r) "" then Err ErrEmptyToken
               else Ok r
           end
  end.

Definition buildRequest (tm : tokenManager) : tokenRequest :=
  {| req_url := tokenURL tm;
     req_client_id := clientID tm;
     req_client_secret := clientSecret tm;
     req_grant_type := "client_credentials" |}.

(** *** The sequential reading *)

(** The world a call runs in: the manager, the requests that reached the
    token endpoint so far (oldest first) and the number of [time.Now()]
    readings made so far. *)
Record World : Type := mkWorld {
  tm : tokenManager;
  posts : list tokenRequest;
  ticks : nat
}.

Definition M : Type -> Type := ST World.

Section Sequential.

(** The environment: the clock, [http.NewRequest]'s verdict on a URL,
    and the token endpoint's answer to the n-th request it receives. *)
Variable clock : nat -> Time.
Variable urlOK : string -> bool.
Variable endpoint : nat -> tokenRequest -> httpResult.

Definition Now : M Time :=
  fun w => (clock (ticks w),
            {| tm := tm w; posts := posts w; ticks := S (ticks w) |}).

Definition readTM : M tokenManager := fun w => (tm w, w).

Definition writeTM (t : tokenManager) : M unit :=
  fun w => (tt, {| tm := t; posts := posts w; ticks := ticks w |}).

Definition Do (req : tokenRequest) : M httpResult :=
  fun w => (endpoint (length (posts w)) req,
            {| tm := tm w; posts := posts w ++ [req]; ticks := ticks w |}).

Definition refreshToken : M (result string) :=
  let* t := readTM in
  let* now := Now in
  if valid t now then ret (Ok (accessToken t))
  else
    if negb (urlOK (tokenURL t)) then ret (Err ErrNewRequest)
    else
      let* resp := Do (buildRequest t) in
      match classify resp with
      | Err e => ret (Err e)
      | Ok tokenResp =>
          writeTM (setAccessToken t (AccessToken tokenResp)) ;;
          let expiresIn := window tokenResp in
          let* now' := Now in
          let* t' := readTM in
          writeTM (setExpiresAt t' expiresIn now') ;;
          let* t'' := readTM in
          ret (Ok (accessToken t''))
      end.

Definition getToken : M (result string) :=
  let* t := readTM in
  let* now := Now in
  if valid t now then ret (Ok (accessToken t))
  else refreshToken.

End Sequential.

End Token.

(** *** Goroutines under the manager's [sync.RWMutex]

    Any number of goroutines call [getToken] on one manager.  A goroutine
    is a program counter over the lines of [token.go]; the scheduler picks
    which goroutine moves next, when the clock advances and what the token
    endpoint answers.  A goroutine that is scheduled while it waits for the
    mutex does not move.  ([sync.RWMutex] also holds back new readers
    while a writer waits; that only removes schedules.) *)

Module Concurrent.
Import Token.

Inductive pc : Type :=
| Calling                       (* about to run line 51, [tm.mu.RLock()] *)
| Checking                      (* read lock held; at the test of line 53 *)
| Hit (token : string)          (* line 54 done; at the [RUnlock] of line 55 *)
| Miss                          (* at the [RUnlock] of line 58 *)
| Locking                       (* in [refreshToken], at [tm.mu.Lock()] *)
| Rechecking                    (* lock held; at the test of line 70 *)
| Requesting                    (* at lines 75-93, nothing sent yet *)
| Awaiting                      (* inside [tm.httpClient.Do(req)] *)
| Storing (r : tokenResponse)   (* line 114 done; at lines 115-119 *)
| Returning (res : result string) (* result fixed; deferred [Unlock] due *)
| Returned (res : result string). (* [getToken] has returned *)

Record state : Type := mkState {
  mgr : tokenManager;
  readers : nat;                 (* holders of the read lock *)
  writer : bool;                 (* is the lock held exclusively *)
  now : Time;
  sent : list tokenRequest;      (* requests that left for the endpoint *)
  returns : list (nat * result string); (* who returned what, oldest first *)
  pool : list pc
}.

Inductive action : Type :=
| Tick (d : Duration)            (* the clock advances by [d] *)
| Run (i : nat) (h : httpResult). (* goroutine [i] moves; [h] is what the
                                    endpoint answers if it is waiting *)

Definition holdsR (p : pc) : bool :=
  match p with
  | Checking | Hit _ | Miss => true
  | _ => false
  end.

Definition holdsW (p : pc) : bool :=
  match p with
  | Rechecking | Requesting | Awaiting | Storing _ | Returning _ => true
  | _ => false
  end.

Definition init (n : nat) (m : tokenManager) (t0 : Time) : state :=
  {| mgr := m; readers := 0; writer := false; now := t0;
     sent := []; returns := []; pool := replicate n Calling |}.

Section Steps.

Variable urlOK : string -> bool.

Definition goto (s : state) (i : nat) (p : pc) : state :=
  {| mgr := mgr s; readers := readers s; writer := writer s;
     now := now s; sent := sent s; returns := returns s;
     pool := <[i:=p]> (pool s) |}.

Definition withMgr (s : state) (m : tokenManager) : state :=
  {| mgr := m; readers := readers s; writer := writer s;
     now := now s; sent := sent s; returns := returns s;
     pool := pool s |}.

Definition withReaders (s : state) (n : nat) : state :=
  {| mgr := mgr s; readers := n; writer := writer s;
     now := now s; sent := sent s; returns := returns s;
     pool := pool s |}.

Definition withWriter (s : state) (b : bool) : state :=
  {| mgr := mgr s; readers := readers s; writer := b;
     now := now s; sent := sent s; returns := returns s;
     pool := pool s |}.

Definition send (s : state) (req : tokenRequest) : state :=
  {| mgr := mgr s; readers := readers s; writer := writer s;
     now := now s; sent := sent s ++ [req]; returns := returns s;
     pool := pool s |}.

Definition yield (s : state) (i : nat) (res : result string) : state :=
  {| mgr := mgr s; readers := readers s; writer := writer s;
     now := now s; sent := sent s; returns := returns s ++ [(i, res)];
     pool := pool s |}.

(** One move of goroutine [i], which is at [p]. *)
Definition move (s : state) (i : nat) (h : httpResult) (p : pc) : state :=
  match p with
  | Calling =>
      if writer s then s
      else goto (withReaders s (S (readers s))) i Checking
  | Checking =>
      if valid (mgr s) (now s)
      then goto s i (Hit (accessToken (mgr s)))
      else goto s i Miss
  | Hit token =>
      goto (yield (withReaders s (pred (readers s))) i (Ok token))
           i (Returned (Ok token))
  | Miss =>
      goto (withReaders s (pred (readers s))) i Locking
  | Locking =>
      if writer s || negb (Nat.eqb (readers s) 0) then s
      else goto (withWriter s true) i Rechecking
  | Rechecking =>
      if valid (mgr s) (now s)
      then goto s i (Returning (Ok (accessToken (mgr s))))
      else goto s i Requesting
  | Requesting =>
      if negb (urlOK (tokenURL (mgr s)))
      then goto s i (Returning (Err ErrNewRequest))
      else goto (send s (buildRequest (mgr s))) i Awaiting
  | Awaiting =>
      match classify h with
      | Err e => goto s i (Returning (Err e))
      | Ok tokenResp =>
          goto (withMgr s (setAccessToken (mgr s) (AccessToken tokenResp)))
               i (Storing tokenResp)
      end
  | Storing tokenResp =>
      let m := setExpiresAt (mgr s) (window tokenResp) (now s) in
      goto (withMgr s m) i (Returning (Ok (accessToken m)))
  | Returning res =>
      goto (yield (withWriter s false) i res) i (Returned res)
  | Returned _ =>
      goto s i Calling
  end.

Definition exec (s : state) (a : action) : state :=
  match a with
  | Tick d =>
      if 0 <=? d
      then {| mgr := mgr s; readers := readers s; writer := writer s;
              now := now s + d; sent := sent s; returns := returns s;
              pool := pool s |}
      else s
  | Run i h =>
      match pool s !! i with
      | Some p => move s i h p
      | None => s
      end
  end.

Definition run (s : state) (schedule : list action) : state :=
  fold_left exec schedule s.

End Steps.

End Concurrent.

(** ** The generated client, package [uspsinternal]

    Only the declarations [client.go] uses.  A Go [*string] is an
    [option string], a [*[]T] an [option (list T)]. *)

Module DomesticAddress.
Record t : Type := mk {
  StreetAddress : option string;
  StreetAddressAbbreviation : option string;
  SecondaryAddress : option string;
  City : option string;
  CityAbbreviation : option string;
  State : option string;
  ZIPCode : option string;
  ZIPPlus4 : option string;
  Urbanization : option string
}.
End DomesticAddress.

Module AddressAdditionalInfo.
Record t : Type := mk {
  DeliveryPoint : option string;
  CarrierRoute : option string;
  DPVConfirmation : option string;
  DPVCMRA : option string;
  Business : option string;
  CentralDeliveryPoint : option string;
  Vacant : option string
}.
End AddressAdditionalInfo.

(** The element type of [Corrections] and of [Matches]. *)
Module CodeText.
Record t : Type := mk {
  Code : option string;
  Text : option string
}.
End CodeText.

Module AddressResponse.
Record t : Type := mk {
  Address : option DomesticAddress.t;
  Firm : option string;
  AdditionalInfo : option AddressAdditionalInfo.t;
  Corrections : option (list CodeText.t);
  Matches : option (list CodeText.t);
  Warnings : option (list string)
}.
End AddressResponse.

Module ErrorMessage.
Record source : Type := mkSource {
  Parameter_ : option string;
  Example_ : option string
}.
Record item : Type := mkItem {
  Title : option string;
  Detail : option string;
  Source : option source
}.
Record inner : Type := mkInner {
  Code : option string;
  Message : option string;
  Errors : option (list item)
}.
Record t : Type := mk {
  Error : option inner
}.
End ErrorMessage.

(** The caller's [Address] values live in a heap; [*Address] is a location
    or nil, and [&address.City] is a location with a field. *)
Definition loc : Type := nat.

Inductive field : Type :=
| FSecondaryAddress | FCity | FZIPCode | FFirm | FUrbanization.

Record fieldptr : Type := mkFieldptr { at_loc : loc; at_field : field }.

Definition readField (a : Address.t) (f : field) : string :=
  match f with
  | FSecondaryAddress => Address.SecondaryAddress a
  | FCity => Address.City a
  | FZIPCode => Address.ZIPCode a
  | FFirm => Address.Firm a
  | FUrbanization => Address.Urbanization a
  end.

Module GetAddressParams.
Record t : Type := mk {
  StreetAddress : string;
  State : string;
  SecondaryAddress : option fieldptr;
  City : option fieldptr;
  ZIPCode : option fieldptr;
  Firm : option fieldptr;
  Urbanization : option fieldptr
}.
End GetAddressParams.

Module GetAddressResponse.
Record t : Type := mk {
  StatusCode : Z;
  JSON200 : option AddressResponse.t;
  JSON400 : option ErrorMessage.t;
  JSON401 : option ErrorMessage.t;
  JSON403 : option ErrorMessage.t;
  JSON404 : option ErrorMessage.t;
  JSON429 : option ErrorMessage.t;
  JSON503 : option ErrorMessage.t
}.
End GetAddressResponse.

(** ** strings.ToUpper *)

Definition isLower (c : ascii) : bool :=
  (97 <=? Z.of_N (N_of_ascii c)) && (Z.of_N (N_of_ascii c) <=? 122).

Definition upperByte (c : ascii) : ascii :=
  if isLower c then ascii_of_N (N_of_ascii c - 32) else c.

Fixpoint isASCII (s : string) : bool :=
  match s with
  | EmptyString => true
  | String c s' => (Z.of_N (N_of_ascii c) <? 128) && isASCII s'
  end.

Fixpoint mapBytes (f : ascii -> ascii) (s : string) : string :=
  match s with
  | EmptyString => EmptyString
  | String c s' => String (f c) (mapBytes f s')
  end.

(** [strings.ToUpper]: bytewise on an ASCII-only string, else
    [strings.Map(unicode.ToUpper, s)], which is [unicodeUpper] here. *)
Definition ToUpper (unicodeUpper : string -> string) (s : string) : string :=
  if isASCII s then mapBytes upperByte s else unicodeUpper s.

(** ** client.go: the translator *)

(** [stringValue] *)
Definition stringValue (s : option string) : string :=
  match s with
  | None => ""
  | Some v => v
  end.

Definition clarifyingMessage : string :=
  "USPS does not have enough data to validate the secondary address. Please double check what you entered.".

Definition generateUserMessage (code text dpvConfirmation : string)
  (hasSecondaryAddress : bool) : string :=
  if String.eqb code "32" then
    if String.eqb dpvConfirmation "D" then text
    else if String.eqb dpvConfirmation "S" && hasSecondaryAddress
    then clarifyingMessage
    else text
  else text.

Definition convertAddress (addr : DomesticAddress.t) (firm : option string)
  : Address.t :=
  {| Address.Firm := stringValue firm;
     Address.StreetAddress := stringValue (DomesticAddress.StreetAddress addr);
     Address.StreetAddressAbbreviation :=
       stringValue (DomesticAddress.StreetAddressAbbreviation addr);
     Address.SecondaryAddress :=
       stringValue (DomesticAddress.SecondaryAddress addr);
     Address.City := stringValue (DomesticAddress.City addr);
     Address.CityAbbreviation :=
       stringValue (DomesticAddress.CityAbbreviation addr);
     Address.State := stringValue (DomesticAddress.State addr);
     Address.ZIPCode := stringValue (DomesticAddress.ZIPCode addr);
     Address.ZIPPlus4 := stringValue (DomesticAddress.ZIPPlus4 addr);
     Address.Urbanization := stringValue (DomesticAddress.Urbanization addr) |}.

Definition convertAdditionalInfo (info : AddressAdditionalInfo.t)
  : AdditionalInfo.t :=
  {| AdditionalInfo.DeliveryPoint :=
       stringValue (AddressAdditionalInfo.DeliveryPoint info);
     AdditionalInfo.CarrierRoute :=
       stringValue (AddressAdditionalInfo.CarrierRoute info);
     AdditionalInfo.DPVConfirmation :=
       stringValue (AddressAdditionalInfo.DPVConfirmation info);
     AdditionalInfo.DPVCMRA := stringValue (AddressAdditionalInfo.DPVCMRA info);
     AdditionalInfo.Business :=
       stringValue (AddressAdditionalInfo.Business info);
     AdditionalInfo.CentralDeliveryPoint :=
       stringValue (AddressAdditionalInfo.CentralDeliveryPoint info);
     AdditionalInfo.Vacant := stringValue (AddressAdditionalInfo.Vacant info) |}.

(** Lines 185-188. *)
Definition dpvConfirmationOf (resp : AddressResponse.t) : string :=
  match AddressResponse.AdditionalInfo resp with
  | Some info =>
      match AddressAdditionalInfo.DPVConfirmation info with
      | Some d => d
      | None => ""
      end
  | None => ""
  end.

(** Line 191. *)
Definition hasSecondaryAddressOf (resp : AddressResponse.t) : bool :=
  match AddressResponse.Address resp with
  | Some addr =>
      match DomesticAddress.SecondaryAddress addr with
      | Some s => negb (String.eqb s "")
      | None => false
      end
  | None => false
  end.

(** The loop of lines 196-208, appending to [acc]. *)
Fixpoint convertCorrections (dpvConfirmation : string)
  (hasSecondaryAddress : bool) (cs : list CodeText.t)
  (acc : list Correction.t) : list Correction.t :=
  match cs with
  | [] => acc
  | c :: rest =>
      let code := stringValue (CodeText.Code c) in
      let text := stringValue (CodeText.Text c) in
      if negb (String.eqb code "") || negb (String.eqb text "") then
        let userMessage :=
          generateUserMessage code text dpvConfirmation hasSecondaryAddress in
        convertCorrections dpvConfirmation hasSecondaryAddress rest
          (acc ++ [Correction.mk code text userMessage])
      else convertCorrections dpvConfirmation hasSecondaryAddress rest acc
  end.

(** The loop of lines 214-224. *)
Fixpoint convertMatches (ms : list CodeText.t) (acc : list Match.t)
  : list Match.t :=
  match ms with
  | [] => acc
  | m :: rest =>
      let code := stringValue (CodeText.Code m) in
      let text := stringValue (CodeText.Text m) in
      if negb (String.eqb code "") || negb (String.eqb text "")
      then convertMatches rest (acc ++ [Match.mk code text])
      else convertMatches rest acc
  end.

Definition convertResponse (resp : AddressResponse.t) : ValidationResult.t :=
  let dpvConfirmation := dpvConfirmationOf resp in
  let hasSecondaryAddress := hasSecondaryAddressOf resp in
  {| ValidationResult.Address :=
       match AddressResponse.Address resp with
       | Some addr => convertAddress addr (AddressResponse.Firm resp)
       | None => Address.zero
       end;
     ValidationResult.Corrections :=
       match AddressResponse.Corrections resp with
       | Some cs => convertCorrections dpvConfirmation hasSecondaryAddress cs []
       | None => []
       end;
     ValidationResult.Matches :=
       match AddressResponse.Matches resp with
       | Some ms => convertMatches ms []
       | None => []
       end;
     ValidationResult.Warnings :=
       match AddressResponse.Warnings resp with
       | Some ws => ws
       | None => []
       end;
     ValidationResult.AdditionalInfo :=
       match AddressResponse.AdditionalInfo resp with
       | Some info => Some (convertAdditionalInfo info)
       | None => None
       end |}.

Definition unknownError : Error.t :=
  {| Error.Status := ""; Error.Code := ""; Error.Title := "Unknown error";
     Error.Detail := ""; Error.Source := None |}.

Definition convertError (errResp : option ErrorMessage.t) : Error.t :=
  match errResp with
  | None => unknownError
  | Some m =>
      match ErrorMessage.Error m with
      | None => unknownError
      | Some e =>
          let result := Error.mk "" "" "" "" None in
          let result :=
            match ErrorMessage.Code e with
            | Some code =>
                Error.mk code code (Error.Title result) (Error.Detail result)
                  (Error.Source result)
            | None => result
            end in
          let result :=
            match ErrorMessage.Message e with
            | Some message =>
                Error.mk (Error.Status result) (Error.Code result) message
                  message (Error.Source result)
            | None => result
            end in
          match ErrorMessage.Errors e with
          | Some (firstErr :: _) =>
              let result :=
                match ErrorMessage.Detail firstErr with
                | Some detail =>
                    Error.mk (Error.Status result) (Error.Code result)
                      (Error.Title result) detail (Error.Source result)
                | None => result
                end in
              let result :=
                match ErrorMessage.Title firstErr with
                | Some title =>
                    Error.mk (Error.Status result) (Error.Code result) title
                      (Error.Detail result) (Error.Source result)
                | None => result
                end in
              match ErrorMessage.Source firstErr with
              | Some src =>
                  Error.mk (Error.Status result) (Error.Code result)
                    (Error.Title result) (Error.Detail result)
                    (Some {| ErrorSource.Parameter_ :=
                               stringValue (ErrorMessage.Parameter_ src);
                             ErrorSource.Example_ :=
                               stringValue (ErrorMessage.Example_ src) |})
              | None => result
              end
          | _ => result
          end
      end
  end.

(** ** client.go: [ValidateAddress] *)

Module Client.

(** The query parameters of the address endpoint. *)
Inductive param : Type :=
| QStreetAddress | QState | QSecondaryAddress | QCity | QZIPCode | QFirm
| QUrbanization.

(** A GET as it leaves for the address endpoint. *)
Record wireRequest : Type := mkWireRequest {
  query : list (param * string);
  authorization : string
}.

(** What the transport's HTTP round trip and parsing yield. *)
Inductive getResult : Type :=
| GetError
| GetResponse (resp : GetAddressResponse.t).

(** The world of a call: the heap holding the caller's addresses, the
    token manager's world, the parameter blocks handed to the generated
    client and the requests that left for the address endpoint. *)
Record World : Type := mkWorld {
  heap : loc -> Address.t;
  token : Token.World;
  calls : list GetAddressParams.t;
  wire : list wireRequest
}.

Definition M : Type -> Type := ST World.

Definition setState (p : GetAddressParams.t) (v : string)
  : GetAddressParams.t :=
  GetAddressParams.mk (GetAddressParams.StreetAddress p) v
    (GetAddressParams.SecondaryAddress p) (GetAddressParams.City p)
    (GetAddressParams.ZIPCode p) (GetAddressParams.Firm p)
    (GetAddressParams.Urbanization p).

Definition setSecondaryAddress (p : GetAddressParams.t) (v : option fieldptr)
  : GetAddressParams.t :=
  GetAddressParams.mk (GetAddressParams.StreetAddress p)
    (GetAddressParams.State p) v (GetAddressParams.City p)
    (GetAddressParams.ZIPCode p) (GetAddressParams.Firm p)
    (GetAddressParams.Urbanization p).

Definition setCity (p : GetAddressParams.t) (v : option fieldptr)
  : GetAddressParams.t :=
  GetAddressParams.mk (GetAddressParams.StreetAddress p)
    (GetAddressParams.State p) (GetAddressParams.SecondaryAddress p) v
    (GetAddressParams.ZIPCode p) (GetAddressParams.Firm p)
    (GetAddressParams.Urbanization p).

Definition setZIPCode (p : GetAddressParams.t) (v : option fieldptr)
  : GetAddressParams.t :=
  GetAddressParams.mk (GetAddressParams.StreetAddress p)
    (GetAddressParams.State p) (GetAddressParams.SecondaryAddress p)
    (GetAddressParams.City p) v (GetAddressParams.Firm p)
    (GetAddressParams.Urbanization p).

Definition setFirm (p : GetAddressParams.t) (v : option fieldptr)
  : GetAddressParams.t :=
  GetAddressParams.mk (GetAddressParams.StreetAddress p)
    (GetAddressParams.State p) (GetAddressParams.SecondaryAddress p)
    (GetAddressParams.City p) (GetAddressParams.ZIPCode p) v
    (GetAddressParams.Urbanization p).

Definition setUrbanization (p : GetAddressParams.t) (v : option fieldptr)
  : GetAddressParams.t :=
  GetAddressParams.mk (GetAddressParams.StreetAddress p)
    (GetAddressParams.State p) (GetAddressParams.SecondaryAddress p)
    (GetAddressParams.City p) (GetAddressParams.ZIPCode p)
    (GetAddressParams.Firm p) v.

Section Calls.

(** The environment: the token manager's, the Unicode part of
    [strings.ToUpper], and the address endpoint's answer to the n-th
    request it receives. *)
Variable clock : nat -> Time.
Variable urlOK : string -> bool.
Variable endpoint : nat -> Token.tokenRequest -> Token.httpResult.
Variable unicodeUpper : string -> string.
Variable server : nat -> wireRequest -> getResult.

Definition load (l : loc) : M Address.t := fun w => (heap w l, w).

Definition deref (p : fieldptr) : M string :=
  fun w => (readField (heap w (at_loc p)) (at_field p), w).

Definition liftToken {A} (m : Token.M A) : M A :=
  fun w => let '(a, t) := m (token w) in
           (a, {| heap := heap w; token := t; calls := calls w;
                  wire := wire w |}).

Definition logCall (p : GetAddressParams.t) : M unit :=
  fun w => (tt, {| heap := heap w; token := token w;
                   calls := calls w ++ [p]; wire := wire w |}).

Definition DoGet (req : wireRequest) : M getResult :=
  fun w => (server (length (wire w)) req,
            {| heap := heap w; token := token w; calls := calls w;
               wire := wire w ++ [req] |}).

(** The request editor [NewClient] installs (lines 48-57): the value of
    the [Authorization] header, or the error. *)
Definition requestEditor : M (result string) :=
  let* token := liftToken (Token.getToken clock urlOK endpoint) in
  match token with
  | Err e => ret (Err (ErrAccessToken e))
  | Ok token => ret (Ok (String.append "Bearer " token))
  end.

Definition optionalParam (k : param) (p : option fieldptr)
  : M (list (param * string)) :=
  match p with
  | None => ret []
  | Some ptr => let* v := deref ptr in ret [(k, v)]
  end.

(** Modelled from the spec: the generated client's
    [GetAddressWithResponse], which is not among the sources.  It sends
    one GET whose query carries the street address and the state, and
    each optional parameter whose pointer is not nil, read through the
    pointer; it invokes the request editor before dispatch and gives up
    when the editor fails; it does not write through the pointers. *)
Definition GetAddressWithResponse (params : GetAddressParams.t)
  : M (result GetAddressResponse.t) :=
  logCall params ;;
  let* q1 := optionalParam QSecondaryAddress
               (GetAddressParams.SecondaryAddress params) in
  let* q2 := optionalParam QCity (GetAddressParams.City params) in
  let* q3 := optionalParam QZIPCode (GetAddressParams.ZIPCode params) in
  let* q4 := optionalParam QFirm (GetAddressParams.Firm params) in
  let* q5 := optionalParam QUrbanization
               (GetAddressParams.Urbanization params) in
  let q := (QStreetAddress, GetAddressParams.StreetAddress params)
           :: (QState, GetAddressParams.State params)
           :: q1 ++ q2 ++ q3 ++ q4 ++ q5 in
  let* auth := requestEditor in
  match auth with
  | Err e => ret (Err e)
  | Ok a =>
      let* r := DoGet {| query := q; authorization := a |} in
      match r with
      | GetError => ret (Err ErrTransport)
      | GetResponse resp => ret (Ok resp)
      end
  end.

Definition ValidateAddress (address : option loc)
  : M (result (list ValidationResult.t)) :=
  match address with
  | None => ret (Err ErrNilAddress)
  | Some l =>
      let* a := load l in
      if String.eqb (Address.StreetAddress a) ""
      then ret (Err ErrStreetRequired)
      else
        let params :=
          GetAddressParams.mk (Address.StreetAddress a) "" None None None
            None None in
        if String.eqb (Address.State a) "" then ret (Err ErrStateRequired)
        else if negb (Nat.eqb (String.length (Address.State a)) 2)
        then ret (Err ErrStateRequired)
        else
          let params :=
            setState params (ToUpper unicodeUpper (Address.State a)) in
          let params :=
            if negb (String.eqb (Address.SecondaryAddress a) "")
            then setSecondaryAddress params
                   (Some (mkFieldptr l FSecondaryAddress))
            else params in
          let params :=
            if negb (String.eqb (Address.City a) "")
            then setCity params (Some (mkFieldptr l FCity))
            else params in
          let params :=
            if negb (String.eqb (Address.ZIPCode a) "")
            then setZIPCode params (Some (mkFieldptr l FZIPCode))
            else params in
          let params :=
            if negb (String.eqb (Address.Firm a) "")
            then setFirm params (Some (mkFieldptr l FFirm))
            else params in
          let params :=
            if negb (String.eqb (Address.Urbanization a) "")
            then setUrbanization params (Some (mkFieldptr l FUrbanization))
            else params in
          let* r := GetAddressWithResponse params in
          match r with
          | Err e => ret (Err (ErrRequestFailed e))
          | Ok resp =>
              if negb (GetAddressResponse.StatusCode resp =? 200) then
                match GetAddressResponse.JSON400 resp with
                | Some m => ret (Err (ErrAPI (convertError (Some m))))
                | None =>
                match GetAddressResponse.JSON401 resp with
                | Some m => ret (Err (ErrAPI (convertError (Some m))))
                | None =>
                match GetAddressResponse.JSON403 resp with
                | Some m => ret (Err (ErrAPI (convertError (Some m))))
                | None =>
                match GetAddressResponse.JSON404 resp with
                | Some m => ret (Err (ErrAPI (convertError (Some m))))
                | None =>
                match GetAddressResponse.JSON429 resp with
                | Some m => ret (Err (ErrAPI (convertError (Some m))))
                | None =>
                match GetAddressResponse.JSON503 resp with
                | Some m => ret (Err (ErrAPI (convertError (Some m))))
                | None =>
                    ret (Err (ErrUnexpectedStatus
                                (GetAddressResponse.StatusCode resp)))
                end end end end end end
              else
                match GetAddressResponse.JSON200 resp with
                | None => ret (Err ErrEmptyResponse)
                | Some body => ret (Ok [convertResponse body])
                end
          end
  end.

End Calls.

End Client.


(** ** Vocabulary of the statements *)

(** The part of [convertError] that copies a source (lines 352-358). *)
Definition convertSource (src : ErrorMessage.source) : ErrorSource.t :=
  {| ErrorSource.Parameter_ := stringValue (ErrorMessage.Parameter_ src);
     ErrorSource.Example_ := stringValue (ErrorMessage.Example_ src) |}.

(** Sample provider answers. *)
Definition sampleResponse : AddressResponse.t :=
  {| AddressResponse.Address :=
       Some (DomesticAddress.mk (Some "1600 PENNSYLVANIA AVE NW") None
               (Some "APT 9") (Some "WASHINGTON") None (Some "DC")
               (Some "20500") None None);
     AddressResponse.Firm := None;
     AddressResponse.AdditionalInfo :=
       Some (AddressAdditionalInfo.mk None None (Some "S") None None None
               None);
     AddressResponse.Corrections :=
       Some [CodeText.mk (Some "32") (Some "Default address")];
     AddressResponse.Matches := None;
     AddressResponse.Warnings := None |}.

Definition sampleUnauthorized : ErrorMessage.inner :=
  ErrorMessage.mkInner (Some "401") (Some "Unauthorized")
    (Some [ErrorMessage.mkItem (Some "Invalid token")
             (Some "The access token has expired") None]).



Definition sampleManager : Token.tokenManager :=
  Token.newTokenManager "id" "secret" "https://apis.usps.com/oauth2/v3/token".

Definition freshWorld : Token.World :=
  {| Token.tm := sampleManager; Token.posts := []; Token.ticks := 0 |}.

Definition warmWorld : Token.World :=
  {| Token.tm :=
       Token.setExpiresAt (Token.setAccessToken sampleManager "T")
         Hour 1000;
     Token.posts := []; Token.ticks := 3 |}.

(** The pointer [ValidateAddress] puts in the parameter block for an
    optional field, and the query parameter the field travels in. *)
Definition paramPtr (f : field) (p : GetAddressParams.t) : option fieldptr :=
  match f with
  | FSecondaryAddress => GetAddressParams.SecondaryAddress p
  | FCity => GetAddressParams.City p
  | FZIPCode => GetAddressParams.ZIPCode p
  | FFirm => GetAddressParams.Firm p
  | FUrbanization => GetAddressParams.Urbanization p
  end.

Definition paramKey (f : field) : Client.param :=
  match f with
  | FSecondaryAddress => Client.QSecondaryAddress
  | FCity => Client.QCity
  | FZIPCode => Client.QZIPCode
  | FFirm => Client.QFirm
  | FUrbanization => Client.QUrbanization
  end.

Definition ptrIf (l : loc) (a : Address.t) (f : field) : option fieldptr :=
  if negb (String.eqb (readField a f) "") then Some (mkFieldptr l f)
  else None.

(** The parameter block of lines 80-108 for the address [a] at [l]. *)
Definition paramsOf (upper : string -> string) (l : loc) (a : Address.t)
  : GetAddressParams.t :=
  {| GetAddressParams.StreetAddress := Address.StreetAddress a;
     GetAddressParams.State := upper (Address.State a);
     GetAddressParams.SecondaryAddress := ptrIf l a FSecondaryAddress;
     GetAddressParams.City := ptrIf l a FCity;
     GetAddressParams.ZIPCode := ptrIf l a FZIPCode;
     GetAddressParams.Firm := ptrIf l a FFirm;
     GetAddressParams.Urbanization := ptrIf l a FUrbanization |}.

Definition derefOpt (h : loc -> Address.t) (k : Client.param)
  (o : option fieldptr) : list (Client.param * string) :=
  match o with
  | None => []
  | Some ptr => [(k, readField (h (at_loc ptr)) (at_field ptr))]
  end.

(** The query of the request for a parameter block, read in heap [h]. *)
Definition queryOf (h : loc -> Address.t) (p : GetAddressParams.t)
  : list (Client.param * string) :=
  (Client.QStreetAddress, GetAddressParams.StreetAddress p)
  :: (Client.QState, GetAddressParams.State p)
  :: derefOpt h Client.QSecondaryAddress (GetAddressParams.SecondaryAddress p)
  ++ derefOpt h Client.QCity (GetAddressParams.City p)
  ++ derefOpt h Client.QZIPCode (GetAddressParams.ZIPCode p)
  ++ derefOpt h Client.QFirm (GetAddressParams.Firm p)
  ++ derefOpt h Client.QUrbanization (GetAddressParams.Urbanization p).

Definition sampleAddress : Address.t :=
  {| Address.Firm := ""; Address.StreetAddress := "1600 Pennsylvania Ave NW";
     Address.StreetAddressAbbreviation := ""; Address.SecondaryAddress := "";
     Address.City := "Washington"; Address.CityAbbreviation := "";
     Address.State := "dc"; Address.ZIPCode := ""; Address.ZIPPlus4 := "";
     Address.Urbanization := "" |}.

Definition sampleClientWorld : Client.World :=
  {| Client.heap := fun _ => sampleAddress; Client.token := warmWorld;
     Client.calls := []; Client.wire := [] |}.

Definition blankClientWorld : Client.World :=
  {| Client.heap := fun _ => Address.zero; Client.token := warmWorld;
     Client.calls := []; Client.wire := [] |}.

(** *** Invariants of the goroutine pool *)

Module Invariants.
Import Token Concurrent.

(** How many goroutines of a pool satisfy [f]. *)
Fixpoint cnt (f : pc -> bool) (l : list pc) : nat :=
  match l with
  | [] => 0%nat
  | p :: l' => ((if f p then 1 else 0) + cnt f l')%nat
  end.

Definition b2n (b : bool) : nat := if b then 1%nat else 0%nat.

(** The mutex counts its holders, and a writer excludes everyone. *)
Record LockInv (s : state) : Prop := mkLockInv {
  lock_readers : readers s = cnt holdsR (pool s);
  lock_writer : cnt holdsW (pool s) = if writer s then 1%nat else 0%nat;
  lock_excl : writer s = true -> readers s = 0%nat
}.

(** The manager after a refresh that received [r] and read the clock at
    [t] on line 119. *)
Definition refreshed (m0 : tokenManager) (r : tokenResponse) (t : Time)
  : tokenManager :=
  setExpiresAt (setAccessToken m0 (AccessToken r)) (window r) t.

(** The token and the expiry belong together: the manager is the initial
    one, or both come from one response. *)
Definition paired (m0 m : tokenManager) : Prop :=
  m = m0 \/ exists r t, AccessToken r <> "" /\ m = refreshed m0 r t.

(** What a goroutine at [p] knows of the manager [m] at time [t]. *)
Definition pcInv (m : tokenManager) (t : Time) (p : pc) : Prop :=
  match p with
  | Hit token => token = accessToken m
  | Requesting | Awaiting => valid m t = false
  | Storing r =>
      expiresAt m <= t /\ accessToken m = AccessToken r /\
      AccessToken r <> ""
  | Returning (Ok token) => token = accessToken m
  | Returning (Err _) => valid m t = false
  | _ => True
  end.

Definition isStoring (p : pc) : bool :=
  match p with
  | Storing _ => true
  | _ => false
  end.

Record DataInv (m0 : tokenManager) (s : state) : Prop := mkDataInv {
  data_blank : accessToken (mgr s) = "" -> expiresAt (mgr s) <= now s;
  data_pc : forall i p, pool s !! i = Some p -> pcInv (mgr s) (now s) p;
  data_paired : cnt isStoring (pool s) = 0%nat -> paired m0 (mgr s);
  data_storing :
    forall i r, pool s !! i = Some (Storing r) ->
                exists m, paired m0 m /\
                          mgr s = setAccessToken m (AccessToken r)
}.

Definition Inv (m0 : tokenManager) (s : state) : Prop :=
  LockInv s /\ DataInv m0 s.

End Invariants.

(** Two goroutines race for a fresh manager: both miss on the fast path,
    goroutine 0 takes the lock and refreshes, goroutine 1 then takes the
    lock and finds the token on its second look. *)
Definition goodAnswer : Token.httpResult :=
  Token.Response 200
    (Token.JSONObject (Some "T") (Some "Bearer") (Some 3600)).

Definition raceUntilStored : list Concurrent.action :=
  [Concurrent.Run 0 Token.DoError; Concurrent.Run 1 Token.DoError;
   Concurrent.Run 0 Token.DoError; Concurrent.Run 1 Token.DoError;
   Concurrent.Run 0 Token.DoError; Concurrent.Run 1 Token.DoError;
   Concurrent.Run 0 Token.DoError; Concurrent.Run 1 Token.DoError;
   Concurrent.Run 0 Token.DoError; Concurrent.Run 0 Token.DoError;
   Concurrent.Tick Second; Concurrent.Run 0 goodAnswer;
   Concurrent.Run 0 Token.DoError].

Definition raceAfterStored : list Concurrent.action :=
  [Concurrent.Run 0 Token.DoError; Concurrent.Tick Minute;
   Concurrent.Run 1 Token.DoError; Concurrent.Run 1 Token.DoError;
   Concurrent.Run 1 Token.DoError].

(** One goroutine alone: the schedule of a whole call of [getToken], with
    the clock advancing by [d1] between the two tests and by [d2] between
    the second test and line 119, run until the goroutine has returned. *)
Definition soloSchedule (d1 d2 : Duration) (h : Token.httpResult)
  : list Concurrent.action :=
  [Concurrent.Run 0 h; Concurrent.Run 0 h; Concurrent.Run 0 h;
   Concurrent.Run 0 h; Concurrent.Tick d1; Concurrent.Run 0 h;
   Concurrent.Run 0 h; Concurrent.Run 0 h; Concurrent.Tick d2;
   Concurrent.Run 0 h; Concurrent.Run 0 h].

Definition hasReturned (s : Concurrent.state) : bool :=
  match Concurrent.pool s !! 0%nat with
  | Some (Concurrent.Returned _) => true
  | _ => false
  end.

Fixpoint runCall (urlOK : string -> bool) (s : Concurrent.state)
  (schedule : list Concurrent.action) : Concurrent.state :=
  match schedule with
  | [] => s
  | a :: rest =>
      if hasReturned s then s
      else runCall urlOK (Concurrent.exec urlOK s a) rest
  end.

Definition soloState (m : Token.tokenManager) (t : Time)
  (ps : list Token.tokenRequest) : Concurrent.state :=
  {| Concurrent.mgr := m; Concurrent.readers := 0;
     Concurrent.writer := false; Concurrent.now := t;
     Concurrent.sent := ps; Concurrent.returns := [];
     Concurrent.pool := [Concurrent.Calling] |}.

(** ** config.go *)

Module Config.

Record t : Type := mk {
  ClientID : string;
  ClientSecret : string;
  ServerURL : string;
  TokenURL : string
}.

(** [func (c *Config) Validate() error]; [None] is the nil error. *)
Definition Validate (c : t) : option Error.t :=
  if String.eqb (ClientID c) "" then
    Some {| Error.Status := ""; Error.Code := "";
            Error.Title := "Invalid configuration";
            Error.Detail := "ClientID is required"; Error.Source := None |}
  else if String.eqb (ClientSecret c) "" then
    Some {| Error.Status := ""; Error.Code := "";
            Error.Title := "Invalid configuration";
            Error.Detail := "ClientSecret is required";
            Error.Source := None |}
  else None.

(** [func (c *Config) setDefaults()]: the configuration after the call. *)
Definition setDefaults (c : t) : t :=
  let c :=
    if String.eqb (ServerURL c) ""
    then mk (ClientID c) (ClientSecret c)
           "https://apis.usps.com/addresses/v3" (TokenURL c)
    else c in
  if String.eqb (TokenURL c) ""
  then mk (ClientID c) (ClientSecret c) (ServerURL c)
         "https://apis.usps.com/oauth2/v3/token"
  else c.

End Config.

(** ** client.go: [NewClient] *)

Module Construct.

(** The [Client] struct: its configuration and its token manager.  The
    two HTTP handles carry no state of their own. *)
Record Client : Type := mkClient {
  config : Config.t;
  tokenManager : Token.tokenManager
}.

Inductive newClientResult : Type :=
| Created (c : Client)
| ConfigError (e : Error.t)      (* the [*Error] of [Validate] *)
| CreateError.                   (* "failed to create USPS client: %w" *)

(** [NewClient]; [generated] tells whether
    [uspsinternal.NewClientWithResponses] accepts the server URL.  The
    configuration is passed by value: the defaults go into the copy. *)
Definition NewClient (generated : string -> bool) (config : Config.t)
  : newClientResult :=
  match Config.Validate config with
  | Some err => ConfigError err
  | None =>
      let config := Config.setDefaults config in
      let tokenManager :=
        Token.newTokenManager (Config.ClientID config)
          (Config.ClientSecret config) (Config.TokenURL config) in
      if generated (Config.ServerURL config)
      then Created {| config := config; tokenManager := tokenManager |}
      else CreateError
  end.

End Construct.

(** ** Vocabulary of the further properties *)

(** The two conversions inside the loops of [convertResponse]. *)
Definition keepEntry (e : CodeText.t) : bool :=
  negb (String.eqb (stringValue (CodeText.Code e)) "")
  || negb (String.eqb (stringValue (CodeText.Text e)) "").

Definition toMatch (e : CodeText.t) : Match.t :=
  Match.mk (stringValue (CodeText.Code e)) (stringValue (CodeText.Text e)).

Definition toCorrection (dpv : string) (has : bool) (e : CodeText.t)
  : Correction.t :=
  Correction.mk (stringValue (CodeText.Code e))
    (stringValue (CodeText.Text e))
    (generateUserMessage (stringValue (CodeText.Code e))
       (stringValue (CodeText.Text e)) dpv has).

(** A token the schedule's answers contain: the access token of a
    response that [classify] accepts. *)
Definition issuedIn (schedule : list Concurrent.action) (token : string)
  : Prop :=
  exists i h r,
    In (Concurrent.Run i h) schedule /\
    Token.classify h = Ok r /\ Token.AccessToken r = token.

(** The tokens a goroutine carries. *)
Definition carried (p : Concurrent.pc) : option string :=
  match p with
  | Concurrent.Hit token => Some token
  | Concurrent.Storing r => Some (Token.AccessToken r)
  | Concurrent.Returning (Ok token) => Some token
  | Concurrent.Returned (Ok token) => Some token
  | _ => None
  end.

(** Every token in sight satisfies [P]: the cached one unless empty, the
    ones goroutines carry, the ones that were returned. *)
Record TokensInv (P : string -> Prop) (s : Concurrent.state) : Prop :=
  mkTokensInv {
  tokens_cached :
    Token.accessToken (Concurrent.mgr s) <> "" ->
    P (Token.accessToken (Concurrent.mgr s));
  tokens_carried :
    forall i p token,
      Concurrent.pool s !! i = Some p -> carried p = Some token -> P token;
  tokens_returned :
    forall i token, In (i, Ok token) (Concurrent.returns s) -> P token
}.


Fixpoint hasLower (s : string) : bool :=
  match s with
  | EmptyString => false
  | String c s' => isLower c || hasLower s'
  end.

Definition sampleConfig : Config.t :=
  Config.mk "id" "secret" "" "".

(** Whether the goroutine at [p] can move in [s]: it cannot while it
    waits for the mutex. *)
Definition enabled (s : Concurrent.state) (p : Concurrent.pc) : bool :=
  match p with
  | Concurrent.Calling => negb (Concurrent.writer s)
  | Concurrent.Locking =>
      negb (Concurrent.writer s
            || negb (Nat.eqb (Concurrent.readers s) 0))
  | _ => true
  end.

(** The first structured error body of a response, in the order of
    lines 140-157. *)
Definition firstError (resp : GetAddressResponse.t)
  : option ErrorMessage.t :=
  match GetAddressResponse.JSON400 resp with
  | Some m => Some m
  | None =>
  match GetAddressResponse.JSON401 resp with
  | Some m => Some m
  | None =>
  match GetAddressResponse.JSON403 resp with
  | Some m => Some m
  | None =>
  match GetAddressResponse.JSON404 resp with
  | Some m => Some m
  | None =>
  match GetAddressResponse.JSON429 resp with
  | Some m => Some m
  | None => GetAddressResponse.JSON503 resp
  end end end end end.

(** Lines 128-167 of [ValidateAddress]: what it makes of the generated
    client's answer. *)
Definition interpret (r : result GetAddressResponse.t)
  : result (list ValidationResult.t) :=
  match r with
  | Err e => Err (ErrRequestFailed e)
  | Ok resp =>
      if negb (GetAddressResponse.StatusCode resp =? 200) then
        match firstError resp with
        | Some m => Err (ErrAPI (convertError (Some m)))
        | None => Err (ErrUnexpectedStatus (GetAddressResponse.StatusCode resp))
        end
      else
        match GetAddressResponse.JSON200 resp with
        | None => Err ErrEmptyResponse
        | Some body => Ok [convertResponse body]
        end
  end.

(** The DPV confirmation indicator a result reports. *)
Definition reportedDPV (v : ValidationResult.t) : string :=
  match ValidationResult.AdditionalInfo v with
  | Some info => AdditionalInfo.DPVConfirmation info
  | None => ""
  end.

Definition sampleOK : GetAddressResponse.t :=
  GetAddressResponse.mk 200 (Some sampleResponse) None None None None None
    None.

Definition sampleDenied : GetAddressResponse.t :=
  GetAddressResponse.mk 401 None None
    (Some (ErrorMessage.mk (Some sampleUnauthorized))) None None None None.

Definition coldClientWorld : Client.World :=
  {| Client.heap := fun _ => sampleAddress; Client.token := freshWorld;
     Client.calls := []; Client.wire := [] |}.

Definition sampleRequest : Client.wireRequest :=
  {| Client.query :=
       [(Client.QStreetAddress, "1600 Pennsylvania Ave NW");
        (Client.QState, "DC"); (Client.QCity, "Washington")];
     Client.authorization := "Bearer T" |}.

(** * Properties *)

(** ** Strings *)

Lemma nonempty_true (s : string) : nonempty s = true <-> s <> "".
Proof.
  unfold nonempty. destruct (String.eqb_spec s ""); simpl; split;
    congruence.
Qed.

Lemma nonempty_false (s : string) : nonempty s = false <-> s = "".
Proof.
  unfold nonempty. destruct (String.eqb_spec s ""); simpl; split;
    congruence.
Qed.

(** ** types.go and the translator *)

Lemma stringValue_default (o : option string) : stringValue o = default "" o.
Proof. destruct o; reflexivity. Qed.

(** C10: [Error()] is [Detail] when that is not empty, else [Title] when
    that is not empty, else ["USPS API error"]; and [convertError] of a nil
    response, or of a response whose inner error is nil, has the title
    ["Unknown error"]. *)
Theorem Error_method_and_unknown_error :
  (forall e : Error.t,
      (Error.Detail e <> "" -> Error.Error e = Error.Detail e) /\
      (Error.Detail e = "" -> Error.Title e <> "" ->
       Error.Error e = Error.Title e) /\
      (Error.Detail e = "" -> Error.Title e = "" ->
       Error.Error e = "USPS API error")) /\
  Error.Title (convertError None) = "Unknown error" /\
  Error.Title (convertError (Some (ErrorMessage.mk None))) = "Unknown error".
Proof.
  split; [| split; reflexivity].
  intros e. unfold Error.Error.
  destruct (String.eqb_spec (Error.Detail e) "") as [Hd | Hd];
    destruct (String.eqb_spec (Error.Title e) "") as [Ht | Ht];
    simpl; repeat split; intros; congruence.
Qed.

Lemma Error_method_and_unknown_error_witness :
  Error.Error (Error.mk "401" "401" "Unauthorized" "" None) = "Unauthorized".
Proof.
  destruct Error_method_and_unknown_error as [H _].
  destruct (H (Error.mk "401" "401" "Unauthorized" "" None)) as (_ & Ht & _).
  apply Ht; [reflexivity | discriminate].
Defined.


Lemma generateUserMessage_other (code text dpv : string) (has : bool) :
  code <> "32" -> generateUserMessage code text dpv has = text.
Proof.
  intros H. unfold generateUserMessage.
  destruct (String.eqb_spec code "32"); congruence.
Qed.


(** Entries with a code or a text are all kept. *)
Lemma convertCorrections_keeps (dpv : string) (has : bool)
  (cs : list CodeText.t) :
  forall (acc : list Correction.t) (p : CodeText.t),
    In p cs ->
    stringValue (CodeText.Code p) <> "" \/
    stringValue (CodeText.Text p) <> "" ->
    In (Correction.mk (stringValue (CodeText.Code p))
          (stringValue (CodeText.Text p))
          (generateUserMessage (stringValue (CodeText.Code p))
             (stringValue (CodeText.Text p)) dpv has))
       (convertCorrections dpv has cs acc).
Proof.
  assert (Hacc : forall cs' acc c,
             In c acc -> In c (convertCorrections dpv has cs' acc)).
  { induction cs' as [| q cs' IH]; intros acc c Hc; simpl; [assumption |].
    destruct (negb _ || negb _); apply IH; [apply in_or_app; now left |
                                            assumption]. }
  induction cs as [| q cs IH]; intros acc p Hp Hne; [destruct Hp |].
  simpl. destruct Hp as [-> | Hp].
  - assert (Hk : negb (String.eqb (stringValue (CodeText.Code p)) "")
                 || negb (String.eqb (stringValue (CodeText.Text p)) "")
                 = true).
    { apply orb_true_iff.
      destruct Hne as [H | H]; [left | right];
        apply negb_true_iff, String.eqb_neq; exact H. }
    rewrite Hk. apply Hacc. apply in_or_app. right. now left.
  - destruct (negb _ || negb _); now apply IH.
Qed.




(** C8: when the errors list is present and not empty, [Title], [Detail]
    and [Source] of the translated error are those of its first entry,
    each one only when the entry has it; a missing title or detail, and
    every title and detail when there is no first entry, is the top-level
    message.  [Code] and [Status] are the top-level code throughout. *)
Theorem convertError_prefers_first_detail (e : ErrorMessage.inner) :
  let r := convertError (Some (ErrorMessage.mk (Some e))) in
  (forall first rest,
      ErrorMessage.Errors e = Some (first :: rest) ->
      Error.Title r =
        default (stringValue (ErrorMessage.Message e))
          (ErrorMessage.Title first) /\
      Error.Detail r =
        default (stringValue (ErrorMessage.Message e))
          (ErrorMessage.Detail first) /\
      Error.Source r = option_map convertSource (ErrorMessage.Source first))
  /\
  (ErrorMessage.Errors e = None \/ ErrorMessage.Errors e = Some [] ->
   Error.Title r = stringValue (ErrorMessage.Message e) /\
   Error.Detail r = stringValue (ErrorMessage.Message e) /\
   Error.Source r = None)
  /\
  Error.Code r = stringValue (ErrorMessage.Code e) /\
  Error.Status r = stringValue (ErrorMessage.Code e).
Proof.
  destruct e as [code message errors]. simpl.
  split; [| split].
  - intros first rest ->. destruct first as [title detail source].
    destruct code, message, title, detail, source; simpl;
      repeat split; reflexivity.
  - intros [-> | ->]; destruct code, message; simpl; repeat split;
      reflexivity.
  - destruct errors as [[| [title detail source] rest] |];
      destruct code, message; simpl; try (split; reflexivity);
      destruct title, detail, source; simpl; split; reflexivity.
Qed.

Lemma convertError_prefers_first_detail_witness :
  Error.Title
    (convertError (Some (ErrorMessage.mk (Some sampleUnauthorized))))
  = "Invalid token" /\
  Error.Detail
    (convertError (Some (ErrorMessage.mk (Some sampleUnauthorized))))
  = "The access token has expired".
Proof.
  destruct (convertError_prefers_first_detail sampleUnauthorized)
    as (H & _).
  destruct (H (ErrorMessage.mkItem (Some "Invalid token")
                 (Some "The access token has expired") None) [])
    as (Ht & Hd & _); [reflexivity |].
  split; [exact Ht | exact Hd].
Defined.

(** ** token.go, one caller *)

Lemma wrap64_small (z : Z) : - 2 ^ 63 <= z < 2 ^ 63 -> wrap64 z = z.
Proof.
  intros H. unfold wrap64.
  rewrite Z.mod_small by lia. lia.
Qed.


Lemma classify_Ok (h : Token.httpResult) (r : Token.tokenResponse) :
  Token.classify h = Ok r ->
  Token.AccessToken r <> "" /\
  exists body, h = Token.Response 200 body /\ Token.Decode body = Some r.
Proof.
  destruct h as [| status body]; simpl; [discriminate |].
  destruct (Z.eqb_spec status 200) as [-> |]; simpl; [| discriminate].
  destruct (Token.Decode body) as [r' |] eqn:Hd; [| discriminate].
  destruct (String.eqb_spec (Token.AccessToken r') ""); [discriminate |].
  intros [= ->]. split; [assumption | exists body; split; congruence].
Qed.

Section OneCaller.

Variable clock : nat -> Time.
Variable urlOK : string -> bool.
Variable endpoint : nat -> Token.tokenRequest -> Token.httpResult.

Local Abbreviation getToken := (Token.getToken clock urlOK endpoint).
Local Abbreviation refreshToken := (Token.refreshToken clock urlOK endpoint).

Lemma valid_true (m : Token.tokenManager) (t : Time) :
  Token.valid m t = true <->
  Token.accessToken m <> "" /\ t < Token.expiresAt m.
Proof.
  unfold Token.valid, Before.
  rewrite andb_true_iff, nonempty_true, Z.ltb_lt. reflexivity.
Qed.

(** A refresh that returns an error has left the manager alone. *)
Lemma refreshToken_Err_frame (w : Token.World) (e : error) :
  fst (refreshToken w) = Err e -> Token.tm (snd (refreshToken w)) = Token.tm w.
Proof.
  unfold Token.refreshToken, bind, ret, Token.readTM, Token.Now,
    Token.writeTM, Token.Do. simpl.
  destruct (Token.valid _ _); simpl; [discriminate |].
  destruct (urlOK _); simpl; [| reflexivity].
  destruct (Token.classify _); simpl; [discriminate | reflexivity].
Qed.

Lemma getToken_Err_frame (w : Token.World) (e : error) :
  fst (getToken w) = Err e -> Token.tm (snd (getToken w)) = Token.tm w.
Proof.
  unfold Token.getToken, bind, ret, Token.readTM, Token.Now. simpl.
  destruct (Token.valid _ _) eqn:Hv; simpl; [discriminate |].
  intros H. apply refreshToken_Err_frame in H. exact H.
Qed.


(** C1: when the cached token is not empty and the clock reads a time
    before [expiresAt], [getToken] returns the cached token; no request
    is posted and the manager is as it was (the only trace of the call is
    that the clock has been read once). *)
Theorem getToken_fast_path (w : Token.World) :
  Token.accessToken (Token.tm w) <> "" ->
  clock (Token.ticks w) < Token.expiresAt (Token.tm w) ->
  getToken w =
    (Ok (Token.accessToken (Token.tm w)),
     {| Token.tm := Token.tm w; Token.posts := Token.posts w;
        Token.ticks := S (Token.ticks w) |}).
Proof.
  intros Htok Hnow.
  unfold Token.getToken, bind, ret, Token.readTM, Token.Now. simpl.
  assert (Hv : Token.valid (Token.tm w) (clock (Token.ticks w)) = true)
    by (apply valid_true; split; assumption).
  rewrite Hv. reflexivity.
Qed.

(** C4 as amended: a successful refresh stores the token; with
    [expires_in] absent or zero [expiresAt] is 55 minutes after the
    clock reading of line 119, and with an [expires_in] whose
    nanoseconds fit the signed 64-bit [time.Duration], less the buffer,
    it is that reading plus [expires_in] seconds minus 5 minutes. *)
Theorem refreshToken_expiry (w : Token.World) (token : string)
  (token_type : option string) (expires_in : option Z) :
  Token.valid (Token.tm w) (clock (Token.ticks w)) = false ->
  urlOK (Token.tokenURL (Token.tm w)) = true ->
  endpoint (length (Token.posts w)) (Token.buildRequest (Token.tm w)) =
    Token.Response 200
      (Token.JSONObject (Some token) token_type expires_in) ->
  token <> "" ->
  Token.refreshBuffer (Token.tm w) = 5 * Minute ->
  let w' := snd (refreshToken w) in
  let now := clock (S (Token.ticks w)) in
  (expires_in = None \/ expires_in = Some 0 ->
   fst (refreshToken w) = Ok token /\
   Token.accessToken (Token.tm w') = token /\
   Token.expiresAt (Token.tm w') = now + 55 * Minute) /\
  (forall n, expires_in = Some n -> n <> 0 ->
             - 2 ^ 63 + 5 * Minute <= n * Second < 2 ^ 63 ->
             fst (refreshToken w) = Ok token /\
             Token.accessToken (Token.tm w') = token /\
             Token.expiresAt (Token.tm w') = now + n * Second - 5 * Minute).
Proof.
  intros Hv Hu He Htok Hbuf w' now.
  assert (Hne : String.eqb token "" = false) by now apply String.eqb_neq.
  split.
  - intros Hei.
    assert (Hd : default 0 expires_in = 0) by (destruct Hei; subst; reflexivity).
    subst w' now.
    unfold Token.refreshToken, bind, ret, Token.readTM, Token.Now,
      Token.writeTM, Token.Do. simpl.
    rewrite Hv, Hu. simpl. rewrite He. simpl. rewrite Hd. simpl.
    rewrite Hne. simpl. rewrite Hbuf.
    split; [reflexivity | split; [reflexivity |]].
    unfold Add. vm_compute (Token.window _).
    unfold dsub. rewrite wrap64_small by (vm_compute; split; congruence).
    unfold Minute, Second. lia.
  - intros n -> Hn Hrange.
    assert (Hr : (- 2 ^ 63 <=? n) && (n <? 2 ^ 63) = true).
    { apply andb_true_iff. rewrite Z.leb_le, Z.ltb_lt.
      unfold Minute, Second in Hrange. lia. }
    subst w' now.
    unfold Token.refreshToken, bind, ret, Token.readTM, Token.Now,
      Token.writeTM, Token.Do. simpl.
    rewrite Hv, Hu. simpl. rewrite He. simpl. rewrite Hr. simpl.
    rewrite Hne. simpl. rewrite Hbuf.
    split; [reflexivity | split; [reflexivity |]].
    unfold Add, Token.window. simpl Token.ExpiresIn.
    unfold dmul. rewrite (wrap64_small (n * Second))
      by (unfold Minute, Second in *; lia).
    destruct (Z.eqb_spec (n * Second) 0) as [H0 | H0];
      [unfold Second in H0; lia |].
    unfold dsub. rewrite wrap64_small
      by (unfold Minute, Second in *; lia).
    lia.
Qed.

End OneCaller.

Lemma getToken_fast_path_witness :
  fst (Token.getToken (fun _ => 2000) (fun _ => true)
         (fun _ _ => Token.DoError) warmWorld) = Ok "T".
Proof.
  rewrite getToken_fast_path; [reflexivity | discriminate |].
  vm_compute. reflexivity.
Defined.

Lemma refreshToken_expiry_witness :
  let out :=
    Token.refreshToken (fun n => Z.of_nat n * Second) (fun _ => true)
      (fun _ _ =>
         Token.Response 200
           (Token.JSONObject (Some "T") (Some "Bearer") (Some 3600)))
      freshWorld in
  fst out = Ok "T" /\
  Token.accessToken (Token.tm (snd out)) = "T" /\
  Token.expiresAt (Token.tm (snd out))
  = 1 * Second + 3600 * Second - 5 * Minute.
Proof.
  intros out.
  pose proof (refreshToken_expiry (fun n => Z.of_nat n * Second)
                (fun _ => true)
                (fun _ _ =>
                   Token.Response 200
                     (Token.JSONObject (Some "T") (Some "Bearer")
                        (Some 3600)))
                freshWorld "T" (Some "Bearer") (Some 3600)
                eq_refl eq_refl eq_refl) as H.
  apply H.
  - discriminate.
  - reflexivity.
  - reflexivity.
  - discriminate.
  - vm_compute. split; congruence.
Defined.

(** The claim C4 without the range: [expires_in = 2^55] is not zero, yet
    its nanoseconds wrap to zero and the window is the default hour. *)
Lemma refreshToken_expiry_counterexample :
  let endpoint := fun (_ : nat) (_ : Token.tokenRequest) =>
    Token.Response 200 (Token.JSONObject (Some "T") None (Some (2 ^ 55))) in
  let out := Token.refreshToken (fun _ => 0) (fun _ => true) endpoint
               freshWorld in
  fst out = Ok "T" /\ 2 ^ 55 <> 0 /\
  Token.expiresAt (Token.tm (snd out)) = 0 + 55 * Minute /\
  Token.expiresAt (Token.tm (snd out)) <> 0 + 2 ^ 55 * Second - 5 * Minute.
Proof.
  vm_compute. repeat split; congruence.
Qed.

(** ** client.go: [ValidateAddress] *)

Section ClientCalls.

Variable clock : nat -> Time.
Variable urlOK : string -> bool.
Variable endpoint : nat -> Token.tokenRequest -> Token.httpResult.
Variable unicodeUpper : string -> string.
Variable server : nat -> Client.wireRequest -> Client.getResult.

Local Abbreviation ValidateAddress :=
  (Client.ValidateAddress clock urlOK endpoint unicodeUpper server).
Local Abbreviation GetAddressWithResponse :=
  (Client.GetAddressWithResponse clock urlOK endpoint server).
Local Abbreviation upper := (ToUpper unicodeUpper).

Lemma optionalParam_eq (k : Client.param) (o : option fieldptr)
  (w : Client.World) :
  Client.optionalParam k o w = (derefOpt (Client.heap w) k o, w).
Proof. destruct o; reflexivity. Qed.

(** What a call of the generated client does to the world. *)
Lemma GetAddressWithResponse_effect (p : GetAddressParams.t)
  (w : Client.World) :
  let w' := snd (GetAddressWithResponse p w) in
  Client.heap w' = Client.heap w /\
  Client.calls w' = Client.calls w ++ [p] /\
  (Client.wire w' = Client.wire w \/
   exists auth,
     Client.wire w' =
     Client.wire w ++ [Client.mkWireRequest (queryOf (Client.heap w) p) auth]).
Proof.
  unfold Client.GetAddressWithResponse, bind, Client.logCall.
  rewrite !optionalParam_eq. cbn [Client.heap].
  unfold Client.requestEditor, bind, Client.liftToken, ret.
  cbn [Client.token Client.heap Client.calls Client.wire].
  destruct (Token.getToken clock urlOK endpoint (Client.token w))
    as [[token | e] t].
  - unfold Client.DoGet. cbn [Client.wire Client.heap Client.calls].
    match goal with
    | |- context [server ?n ?r] => destruct (server n r)
    end; cbn; repeat split; right; eexists; reflexivity.
  - cbn. repeat split. now left.
Qed.

Opaque Client.GetAddressWithResponse.

(** With its preconditions met, [ValidateAddress] hands the parameter
    block [paramsOf] to the generated client. *)
Lemma ValidateAddress_calls (l : loc) (w : Client.World) :
  Address.StreetAddress (Client.heap w l) <> "" ->
  String.length (Address.State (Client.heap w l)) = 2%nat ->
  snd (ValidateAddress (Some l) w) =
  snd (GetAddressWithResponse (paramsOf upper l (Client.heap w l)) w).
Proof.
  intros Hs Hst.
  unfold Client.ValidateAddress, bind, Client.load. cbv zeta.
  apply String.eqb_neq in Hs. rewrite Hs.
  assert (Hne : String.eqb (Address.State (Client.heap w l)) "" = false).
  { apply String.eqb_neq. intros E. rewrite E in Hst. discriminate. }
  rewrite Hne, Hst. unfold paramsOf, ptrIf. cbn [readField].
  destruct (String.eqb (Address.SecondaryAddress _) "");
    destruct (String.eqb (Address.City _) "");
    destruct (String.eqb (Address.ZIPCode _) "");
    destruct (String.eqb (Address.Firm _) "");
    destruct (String.eqb (Address.Urbanization _) "");
    cbn -[convertError convertResponse ToUpper];
    match goal with
    | |- context [Client.GetAddressWithResponse ?c ?u ?e ?s ?p ?w] =>
        destruct (Client.GetAddressWithResponse c u e s p w)
          as [[resp | err] w'] eqn:E
    end;
    cbn -[convertError convertResponse];
    try exact (eq_sym (f_equal snd E));
    (destruct (negb _);
    [ destruct (GetAddressResponse.JSON400 resp);
        [exact (eq_sym (f_equal snd E)) |];
      destruct (GetAddressResponse.JSON401 resp);
        [exact (eq_sym (f_equal snd E)) |];
      destruct (GetAddressResponse.JSON403 resp);
        [exact (eq_sym (f_equal snd E)) |];
      destruct (GetAddressResponse.JSON404 resp);
        [exact (eq_sym (f_equal snd E)) |];
      destruct (GetAddressResponse.JSON429 resp);
        [exact (eq_sym (f_equal snd E)) |];
      destruct (GetAddressResponse.JSON503 resp);
        exact (eq_sym (f_equal snd E))
    | destruct (GetAddressResponse.JSON200 resp);
        exact (eq_sym (f_equal snd E)) ]).
Qed.

Transparent Client.GetAddressWithResponse.

Lemma In_derefOpt (h : loc -> Address.t) (k k' : Client.param)
  (o : option fieldptr) (v : string) :
  In (k', v) (derefOpt h k o) <->
  exists ptr, o = Some ptr /\ k' = k /\
              v = readField (h (at_loc ptr)) (at_field ptr).
Proof.
  destruct o as [ptr |]; simpl.
  - split.
    + intros [[= <- <-] | []]. eauto.
    + intros (ptr' & [= <-] & -> & ->). now left.
  - split; [intros [] | intros (ptr & H & _); discriminate].
Qed.

(** The optional parameters of the query of [paramsOf]. *)
Lemma In_queryOf_optional (h : loc -> Address.t) (l : loc) (f : field)
  (v : string) :
  In (paramKey f, v) (queryOf h (paramsOf upper l (h l))) <->
  v = readField (h l) f /\ v <> "".
Proof.
  unfold queryOf. cbn [In].
  rewrite !in_app_iff, !In_derefOpt. cbn [paramsOf
    GetAddressParams.SecondaryAddress GetAddressParams.City
    GetAddressParams.ZIPCode GetAddressParams.Firm
    GetAddressParams.Urbanization].
  unfold ptrIf. split.
  - intros [H | [H | H]]; [destruct f; discriminate..|].
    destruct H as [H | [H | [H | [H | H]]]];
      destruct H as (ptr & Hptr & Hk & ->);
      match type of Hptr with
      | (if negb (String.eqb ?x "") then _ else _) = _ =>
          destruct (String.eqb_spec x ""); [discriminate |];
          injection Hptr as <-
      end;
      destruct f; try discriminate; cbn; (split; [reflexivity | assumption]).
  - intros [-> Hne]. right. right.
    apply String.eqb_neq in Hne.
    destruct f; cbn in Hne |- *; rewrite Hne; cbn.
    + left. eexists. repeat split.
    + right; left. eexists. repeat split.
    + right; right; left. eexists. repeat split.
    + right; right; right; left. eexists. repeat split.
    + right; right; right; right. eexists. repeat split.
Qed.

Lemma In_queryOf_state (h : loc -> Address.t) (l : loc) (v : string) :
  In (Client.QState, v) (queryOf h (paramsOf upper l (h l))) <->
  v = upper (Address.State (h l)).
Proof.
  unfold queryOf. cbn [In].
  rewrite !in_app_iff, !In_derefOpt. cbn. split.
  - intros [H | [H | H]]; [discriminate | congruence |].
    destruct H as [H | [H | [H | [H | H]]]];
      destruct H as (ptr & _ & Hk & _); discriminate.
  - intros ->. right. left. reflexivity.
Qed.

(** The calls [ValidateAddress] turns down leave the world as it is. *)
Lemma ValidateAddress_rejects (address : option loc) (w : Client.World) :
  address = None \/
  (exists l, address = Some l /\
     (Address.StreetAddress (Client.heap w l) = "" \/
      Address.State (Client.heap w l) = "" \/
      String.length (Address.State (Client.heap w l)) <> 2%nat)) ->
  exists e, ValidateAddress address w = (Err e, w).
Proof.
  intros [-> | (l & -> & H)]; [eexists; reflexivity |].
  unfold Client.ValidateAddress, bind, Client.load, ret.
  destruct (String.eqb_spec (Address.StreetAddress (Client.heap w l)) "")
    as [Hs | Hs]; [eexists; reflexivity |].
  destruct (String.eqb_spec (Address.State (Client.heap w l)) "")
    as [He | He]; [eexists; reflexivity |].
  destruct (Nat.eqb_spec (String.length (Address.State (Client.heap w l))) 2)
    as [Hl | Hl]; [| eexists; reflexivity].
  destruct H as [H | [H | H]]; contradiction.
Qed.

(** C5: a nil address, an empty [StreetAddress], and a [State] that is
    empty or whose length is not 2 are answered with an error, and the
    world is untouched: nothing was handed to the generated client,
    nothing left for the address endpoint or for the token endpoint.
    Otherwise the parameter block carries the uppercased [State], and so
    does the request if one leaves. *)
Theorem ValidateAddress_preconditions (address : option loc)
  (w : Client.World) :
  (address = None \/
   (exists l, address = Some l /\
      (Address.StreetAddress (Client.heap w l) = "" \/
       Address.State (Client.heap w l) = "" \/
       String.length (Address.State (Client.heap w l)) <> 2%nat)) ->
   exists e, ValidateAddress address w = (Err e, w)) /\
  (forall l,
      address = Some l ->
      Address.StreetAddress (Client.heap w l) <> "" ->
      String.length (Address.State (Client.heap w l)) = 2%nat ->
      let w' := snd (ValidateAddress address w) in
      (exists p,
          Client.calls w' = Client.calls w ++ [p] /\
          GetAddressParams.State p =
            upper (Address.State (Client.heap w l))) /\
      (Client.wire w' = Client.wire w \/
       exists req,
         Client.wire w' = Client.wire w ++ [req] /\
         forall v, In (Client.QState, v) (Client.query req) <->
                   v = upper (Address.State (Client.heap w l)))).
Proof.
  split; [apply ValidateAddress_rejects |].
  intros l -> Hs Hl w'. subst w'.
  rewrite (ValidateAddress_calls l w Hs Hl).
  destruct (GetAddressWithResponse_effect
              (paramsOf upper l (Client.heap w l)) w)
    as (_ & Hc & Hw).
  split.
  - eexists. split; [exact Hc | reflexivity].
  - destruct Hw as [Hw | (auth & Hw)]; [now left | right].
    eexists. split; [exact Hw |].
    intros v. cbn [Client.query]. apply In_queryOf_state.
Qed.

(** C6: with the preconditions met, the parameter block holds a pointer
    for an optional field exactly when the field is not empty, and then
    it is the pointer to the caller's field; a request that leaves
    carries the field's parameter exactly when the field is not empty,
    with the field as its value, so never with an empty value. *)
Theorem optional_field_sent_iff_nonempty (l : loc) (w : Client.World)
  (f : field) :
  Address.StreetAddress (Client.heap w l) <> "" ->
  String.length (Address.State (Client.heap w l)) = 2%nat ->
  let a := Client.heap w l in
  let w' := snd (ValidateAddress (Some l) w) in
  (exists p,
      Client.calls w' = Client.calls w ++ [p] /\
      (paramPtr f p <> None <-> readField a f <> "") /\
      (forall ptr, paramPtr f p = Some ptr -> ptr = mkFieldptr l f)) /\
  (Client.wire w' = Client.wire w \/
   exists req,
     Client.wire w' = Client.wire w ++ [req] /\
     (forall v, In (paramKey f, v) (Client.query req) <->
                v = readField a f /\ v <> "")).
Proof.
  intros Hs Hl a w'. subst w'.
  rewrite (ValidateAddress_calls l w Hs Hl).
  destruct (GetAddressWithResponse_effect (paramsOf upper l a) w)
    as (_ & Hc & Hw).
  split.
  - exists (paramsOf upper l a). split; [exact Hc |].
    assert (Hp : paramPtr f (paramsOf upper l a) = ptrIf l a f)
      by (destruct f; reflexivity).
    rewrite Hp. unfold ptrIf.
    destruct (String.eqb_spec (readField a f) "") as [He | He]; cbn.
    + split; [split; congruence | discriminate].
    + split; [split; congruence | congruence].
  - destruct Hw as [Hw | (auth & Hw)]; [now left | right].
    eexists. split; [exact Hw |].
    intros v. cbn [Client.query]. apply In_queryOf_optional.
Qed.

(** C9: whatever the address and whatever the answers, the heap after
    [ValidateAddress] is the heap before it: no field of the caller's
    address has changed. *)
Theorem ValidateAddress_leaves_address (address : option loc)
  (w : Client.World) :
  Client.heap (snd (ValidateAddress address w)) = Client.heap w.
Proof.
  destruct address as [l |]; [| reflexivity].
  destruct (String.eqb_spec (Address.StreetAddress (Client.heap w l)) "")
    as [Hs | Hs].
  { destruct (ValidateAddress_rejects (Some l) w) as [e He];
      [right; eauto | rewrite He; reflexivity]. }
  destruct (Nat.eqb_spec (String.length (Address.State (Client.heap w l))) 2)
    as [Hl | Hl].
  - rewrite (ValidateAddress_calls l w Hs Hl).
    apply GetAddressWithResponse_effect.
  - destruct (ValidateAddress_rejects (Some l) w) as [e He];
      [right; eauto 6 | rewrite He; reflexivity].
Qed.

End ClientCalls.

Lemma ValidateAddress_preconditions_witness :
  (exists e,
      Client.ValidateAddress (fun _ => 2000) (fun _ => true)
        (fun _ _ => Token.DoError) (fun s => s) (fun _ _ => Client.GetError)
        (Some 0%nat) blankClientWorld = (Err e, blankClientWorld)) /\
  (exists p,
      Client.calls
        (snd (Client.ValidateAddress (fun _ => 2000) (fun _ => true)
                (fun _ _ => Token.DoError) (fun s => s)
                (fun _ _ => Client.GetError) (Some 0%nat) sampleClientWorld))
      = [] ++ [p] /\
      GetAddressParams.State p = "DC").
Proof.
  split.
  - apply (proj1 (ValidateAddress_preconditions (fun _ => 2000)
                    (fun _ => true) (fun _ _ => Token.DoError) (fun s => s)
                    (fun _ _ => Client.GetError) (Some 0%nat)
                    blankClientWorld)).
    right. exists 0%nat. split; [reflexivity | left; reflexivity].
  - apply (proj2 (ValidateAddress_preconditions (fun _ => 2000)
                    (fun _ => true) (fun _ _ => Token.DoError) (fun s => s)
                    (fun _ _ => Client.GetError) (Some 0%nat)
                    sampleClientWorld) 0%nat eq_refl);
      [discriminate | reflexivity].
Defined.

Lemma optional_field_sent_iff_nonempty_witness :
  let w' :=
    snd (Client.ValidateAddress (fun _ => 2000) (fun _ => true)
           (fun _ _ => Token.DoError) (fun s => s)
           (fun _ _ => Client.GetError) (Some 0%nat) sampleClientWorld) in
  (exists p,
      Client.calls w' = [] ++ [p] /\
      (paramPtr FCity p <> None <-> "Washington" <> "") /\
      (forall ptr, paramPtr FCity p = Some ptr -> ptr = mkFieldptr 0%nat FCity)) /\
  (Client.wire w' = [] \/
   exists req,
     Client.wire w' = [] ++ [req] /\
     (forall v, In (Client.QCity, v) (Client.query req) <->
                v = "Washington" /\ v <> "")).
Proof.
  apply (optional_field_sent_iff_nonempty (fun _ => 2000) (fun _ => true)
           (fun _ _ => Token.DoError) (fun s => s)
           (fun _ _ => Client.GetError) 0%nat sampleClientWorld FCity);
    [discriminate | reflexivity].
Defined.

(** ** token.go, many callers *)

Module ConcurrentProofs.
Import Token Concurrent Invariants.

(** *** Counting goroutines *)

Lemma cnt_insert (f : pc -> bool) (l : list pc) :
  forall (i : nat) (p q : pc),
    l !! i = Some p ->
    (cnt f (<[i:=q]> l) + (if f p then 1 else 0) =
     cnt f l + (if f q then 1 else 0))%nat.
Proof.
  induction l as [| x l IH]; intros [| i] p q H; simpl in *;
    try discriminate.
  - injection H as ->. lia.
  - specialize (IH i p q H). lia.
Qed.

Lemma cnt_zero (f : pc -> bool) (l : list pc) (i : nat) (p : pc) :
  cnt f l = 0%nat -> l !! i = Some p -> f p = false.
Proof.
  revert i. induction l as [| x l IH]; intros [| i] Hc H; simpl in *;
    try discriminate.
  - injection H as ->. destruct (f p); [lia | reflexivity].
  - apply (IH i); [lia | assumption].
Qed.

Lemma cnt_one (f : pc -> bool) (l : list pc) :
  forall (i j : nat) (p q : pc),
    cnt f l = 1%nat ->
    l !! i = Some p -> f p = true ->
    l !! j = Some q -> f q = true -> i = j.
Proof.
  induction l as [| x l IH]; intros [| i] [| j] p q Hc Hi Hp Hj Hq;
    simpl in *; try discriminate.
  - reflexivity.
  - injection Hi as ->. rewrite Hp in Hc.
    assert (H0 : cnt f l = 0%nat) by lia.
    rewrite (cnt_zero f l j q H0 Hj) in Hq. discriminate.
  - injection Hj as ->. rewrite Hq in Hc.
    assert (H0 : cnt f l = 0%nat) by lia.
    rewrite (cnt_zero f l i p H0 Hi) in Hp. discriminate.
  - f_equal. apply (IH i j p q); try assumption.
    destruct (f x); [| lia].
    assert (H0 : cnt f l = 0%nat) by lia.
    rewrite (cnt_zero f l i p H0 Hi) in Hp. discriminate.
Qed.

Lemma cnt_replicate (f : pc -> bool) (n : nat) (p : pc) :
  f p = false -> cnt f (replicate n p) = 0%nat.
Proof.
  intros H. induction n as [| n IH]; simpl; [reflexivity |].
  rewrite H, IH. reflexivity.
Qed.

Lemma lookup_goto (l : list pc) (i j : nat) (q pj : pc) :
  <[i:=q]> l !! j = Some pj ->
  (j = i /\ pj = q) \/ (j <> i /\ l !! j = Some pj).
Proof.
  intros H. destruct (decide (i = j)) as [-> | Hne].
  - left. split; [reflexivity |].
    destruct (decide (j < length l)%nat) as [Hlt | Hge].
    + rewrite list_lookup_insert_eq in H by assumption. congruence.
    + rewrite list_insert_ge in H by lia.
      apply lookup_lt_Some in H. lia.
  - right. rewrite list_lookup_insert_ne in H by assumption.
    split; [congruence | assumption].
Qed.

(** *** The mutex *)

Section Pool.

Variable urlOK : string -> bool.

Local Abbreviation exec := (Concurrent.exec urlOK).
Local Abbreviation run := (Concurrent.run urlOK).
Local Abbreviation move := (Concurrent.move urlOK).

Lemma LockInv_init (n : nat) (m : tokenManager) (t0 : Time) :
  LockInv (init n m t0).
Proof.
  split; simpl.
  - now rewrite cnt_replicate.
  - now rewrite cnt_replicate.
  - discriminate.
Qed.

(** A goroutine changes place: the counts follow. *)
Lemma LockInv_goto (s s' : state) (i : nat) (p q : pc) :
  LockInv s ->
  pool s !! i = Some p ->
  pool s' = pool s ->
  (readers s' + b2n (holdsR p) = readers s + b2n (holdsR q))%nat ->
  (b2n (writer s') + b2n (holdsW p) = b2n (writer s) + b2n (holdsW q))%nat ->
  (writer s' = true -> readers s' = 0%nat) ->
  LockInv (goto s' i q).
Proof.
  intros [HR HW HX] Hp Hpool Hr Hw Hx.
  pose proof (cnt_insert holdsR (pool s) i p q Hp) as CR.
  pose proof (cnt_insert holdsW (pool s) i p q Hp) as CW.
  unfold b2n in *.
  split; simpl; rewrite ?Hpool.
  - destruct (holdsR p), (holdsR q); lia.
  - destruct (writer s'), (writer s), (holdsW p), (holdsW q); lia.
  - exact Hx.
Qed.

Lemma LockInv_exec (s : state) (a : action) :
  LockInv s -> LockInv (exec s a).
Proof.
  intros HL. pose proof HL as [HR HW HX].
  destruct a as [d | i h]; simpl.
  - destruct (0 <=? d); [split |]; assumption.
  - destruct (pool s !! i) as [p |] eqn:Hp; [| assumption].
    assert (Hpos : holdsR p = true -> (1 <= readers s)%nat).
    { intros Hh. rewrite HR. clear - Hp Hh. revert i Hp.
      induction (pool s) as [| x l IH]; intros [| i] Hp; simpl in *;
        try discriminate.
      - injection Hp as ->. rewrite Hh. lia.
      - specialize (IH i Hp). lia. }
    assert (Hwr : holdsW p = true -> writer s = true).
    { intros Hh. destruct (writer s) eqn:E; [reflexivity |].
      rewrite (cnt_zero holdsW (pool s) i p HW Hp) in Hh. discriminate. }
    destruct p; unfold Concurrent.move;
      repeat match goal with
             | |- LockInv (if ?c then _ else _) => destruct c eqn:?
             | |- LockInv (match ?c with _ => _ end) => destruct c eqn:?
             end;
      try assumption;
      (eapply LockInv_goto; [exact HL | exact Hp | reflexivity | ..]);
      unfold b2n; simpl; simpl in Hpos, Hwr;
      try specialize (Hpos eq_refl); try specialize (Hwr eq_refl);
      repeat match goal with
             | H : false = true -> _ |- _ => clear H
             | H : (_ || _) = false |- _ =>
                 apply orb_false_iff in H; destruct H
             | H : negb _ = false |- _ => apply negb_false_iff in H
             | H : Nat.eqb _ _ = true |- _ => apply Nat.eqb_eq in H
             | H : writer s = _ |- _ => rewrite H in *; clear H
             end;
      intros; try lia; try congruence; auto;
      match goal with
      | H : writer s = true |- _ => specialize (HX H); lia
      end.
Qed.

(** *** Who can be where *)

Lemma writer_alone (s : state) (i j : nat) (p q : pc) :
  LockInv s ->
  pool s !! i = Some p -> holdsW p = true ->
  pool s !! j = Some q -> j <> i ->
  holdsR q = false /\ holdsW q = false.
Proof.
  intros [HR HW HX] Hi Hp Hj Hne.
  destruct (writer s) eqn:Hw.
  - split.
    + apply (cnt_zero holdsR (pool s) j); [| assumption].
      rewrite <- HR. now apply HX.
    + destruct (holdsW q) eqn:Hq; [| reflexivity].
      exfalso. apply Hne. symmetry.
      exact (cnt_one holdsW (pool s) i j p q HW Hi Hp Hj Hq).
  - rewrite (cnt_zero holdsW (pool s) i p HW Hi) in Hp. discriminate.
Qed.

Lemma writer_held (s : state) (i : nat) (p : pc) :
  LockInv s -> pool s !! i = Some p -> holdsW p = true ->
  writer s = true.
Proof.
  intros [HR HW HX] Hi Hp.
  destruct (writer s) eqn:Hw; [reflexivity |].
  rewrite (cnt_zero holdsW (pool s) i p HW Hi) in Hp. discriminate.
Qed.

Lemma cnt_all_false (f : pc -> bool) (l : list pc) :
  (forall j q, l !! j = Some q -> f q = false) -> cnt f l = 0%nat.
Proof.
  induction l as [| x l IH]; intros H; simpl; [reflexivity |].
  rewrite (H 0%nat x eq_refl), IH; [reflexivity |].
  intros j q Hj. exact (H (S j) q Hj).
Qed.

Lemma isStoring_holdsW (p : pc) : isStoring p = true -> holdsW p = true.
Proof. destruct p; simpl; congruence. Qed.

(** *** What goroutines know *)

Lemma valid_false_later (m : tokenManager) (t t' : Time) :
  valid m t = false -> t <= t' -> valid m t' = false.
Proof.
  unfold valid, Before. intros H Hle.
  apply andb_false_iff in H. apply andb_false_iff.
  destruct H as [H | H]; [now left | right].
  apply Z.ltb_ge in H. apply Z.ltb_ge. lia.
Qed.

Lemma valid_true_earlier (m : tokenManager) (t t' : Time) :
  valid m t' = true -> t <= t' -> valid m t = true.
Proof.
  intros H Hle. destruct (valid m t) eqn:E; [reflexivity |].
  rewrite (valid_false_later m t t' E Hle) in H. discriminate.
Qed.

Lemma pcInv_idle (m : tokenManager) (t : Time) (p : pc) :
  holdsR p = false -> holdsW p = false -> pcInv m t p.
Proof. destruct p; simpl; intros; try discriminate; exact I. Qed.

Lemma pcInv_later (m : tokenManager) (t t' : Time) (p : pc) :
  pcInv m t p -> t <= t' -> pcInv m t' p.
Proof.
  destruct p as [| | | | | | | | r | [tok | e] |]; simpl; intros H Hle;
    try assumption; try (eapply valid_false_later; eassumption).
  destruct H as (H1 & H2 & H3). repeat split; try assumption. lia.
Qed.

Lemma refreshed_again (m0 : tokenManager) (r r' : tokenResponse)
  (t t' : Time) :
  refreshed (refreshed m0 r' t') r t = refreshed m0 r t.
Proof. reflexivity. Qed.

Lemma DataInv_init (n : nat) (m0 : tokenManager) (t0 : Time) :
  (accessToken m0 = "" -> expiresAt m0 <= t0) ->
  DataInv m0 (init n m0 t0).
Proof.
  intros H0. split; simpl.
  - exact H0.
  - intros i p Hp. apply lookup_replicate in Hp as [-> _]. exact I.
  - intros _. now left.
  - intros i r Hp. apply lookup_replicate in Hp as [Hp _]. discriminate.
Qed.

(** A move that leaves the manager and the clock alone. *)
Lemma DataInv_goto (m0 : tokenManager) (s s' : state) (i : nat)
  (p q : pc) :
  DataInv m0 s ->
  pool s !! i = Some p ->
  pool s' = pool s -> mgr s' = mgr s -> now s' = now s ->
  isStoring p = false -> isStoring q = false ->
  pcInv (mgr s) (now s) q ->
  DataInv m0 (goto s' i q).
Proof.
  intros [Hb Hpc Hpa Hst] Hp Hpool Hmgr Hnow Hsp Hsq Hq.
  split; simpl; rewrite ?Hpool, ?Hmgr, ?Hnow.
  - exact Hb.
  - intros j pj Hj. apply lookup_goto in Hj as [[-> ->] | [Hne Hj]];
      [exact Hq | exact (Hpc j pj Hj)].
  - intros Hc. apply Hpa.
    pose proof (cnt_insert isStoring (pool s) i p q Hp) as C.
    rewrite Hsp, Hsq in C. lia.
  - intros j r Hj. apply lookup_goto in Hj as [[-> Hq'] | [Hne Hj]].
    + subst q. discriminate.
    + exact (Hst j r Hj).
Qed.

Lemma DataInv_exec (m0 : tokenManager) (s : state) (a : action) :
  LockInv s -> DataInv m0 s -> DataInv m0 (exec s a).
Proof.
  intros HL HD. pose proof HD as [Hb Hpc Hpa Hst].
  destruct a as [d | i h]; simpl.
  - destruct (Z.leb_spec 0 d) as [Hd | Hd]; [| assumption].
    split; simpl.
    + intros H. specialize (Hb H). lia.
    + intros j p Hj.
      apply (pcInv_later _ (now s)); [exact (Hpc j p Hj) | lia].
    + exact Hpa.
    + exact Hst.
  - destruct (pool s !! i) as [p |] eqn:Hp; [| assumption].
    pose proof (Hpc i p Hp) as Hi.
    destruct p; unfold Concurrent.move; simpl in Hi.
    + (* Calling *)
      destruct (writer s); [assumption |].
      eapply DataInv_goto; eauto; reflexivity || exact I.
    + (* Checking *)
      destruct (valid (mgr s) (now s)) eqn:Hv;
        eapply DataInv_goto; eauto; reflexivity || exact I.
    + (* Hit *)
      eapply DataInv_goto; eauto; reflexivity || exact I.
    + (* Miss *)
      eapply DataInv_goto; eauto; reflexivity || exact I.
    + (* Locking *)
      destruct (writer s || negb (Nat.eqb (readers s) 0)); [assumption |].
      eapply DataInv_goto; eauto; reflexivity || exact I.
    + (* Rechecking *)
      destruct (valid (mgr s) (now s)) eqn:Hv;
        eapply DataInv_goto; eauto; reflexivity || exact I.
    + (* Requesting *)
      destruct (negb (urlOK (tokenURL (mgr s))));
        eapply DataInv_goto; eauto; reflexivity || exact I.
    + (* Awaiting *)
      destruct (classify h) as [r | e] eqn:Hc.
      * apply classify_Ok in Hc as [Hne _].
        assert (Hlt : (i < length (pool s))%nat)
          by (eapply lookup_lt_Some; eassumption).
        assert (Hothers : forall j q, pool s !! j = Some q ->
                                      isStoring q = false).
        { intros j q Hj. destruct (decide (j = i)) as [-> | Hji].
          - rewrite Hp in Hj. injection Hj as <-. reflexivity.
          - destruct (writer_alone s i j Awaiting q HL Hp eq_refl Hj Hji)
              as [_ HWq].
            destruct (isStoring q) eqn:E; [| reflexivity].
            apply isStoring_holdsW in E. congruence. }
        split; simpl.
        -- intros H. congruence.
        -- intros j pj Hj.
           apply lookup_goto in Hj as [[-> ->] | [Hji Hj]].
           ++ simpl. repeat split; try assumption.
              unfold valid, Before in Hi.
              apply andb_false_iff in Hi as [Hi | Hi].
              ** apply nonempty_false in Hi. auto.
              ** apply Z.ltb_ge in Hi. exact Hi.
           ++ destruct (writer_alone s i j Awaiting pj HL Hp eq_refl Hj Hji).
              now apply pcInv_idle.
        -- intros Hcn. exfalso.
           assert (E : <[i:=Storing r]> (pool s) !! i = Some (Storing r))
             by now apply list_lookup_insert_eq.
           pose proof (cnt_zero isStoring _ i _ Hcn E) as F.
           discriminate.
        -- intros j r' Hj.
           apply lookup_goto in Hj as [[-> Hq] | [Hji Hj]].
           ++ injection Hq as ->. exists (mgr s). split; [| reflexivity].
              apply Hpa. now apply cnt_all_false.
           ++ pose proof (Hothers j _ Hj) as F. discriminate.
      * eapply DataInv_goto; eauto; reflexivity || exact I.
    + (* Storing *)
      destruct Hi as (Hexp & Htok & Hne).
      destruct (Hst i r Hp) as (m & Hm & Hmgr).
      split; simpl.
      -- intros H. congruence.
      -- intros j pj Hj.
         apply lookup_goto in Hj as [[-> ->] | [Hji Hj]].
         ++ reflexivity.
         ++ destruct (writer_alone s i j (Storing r) pj HL Hp eq_refl Hj Hji).
            now apply pcInv_idle.
      -- intros _. right. exists r, (now s). split; [assumption |].
         rewrite Hmgr.
         destruct Hm as [-> | (r' & t' & _ & ->)]; reflexivity.
      -- intros j r' Hj.
         apply lookup_goto in Hj as [[-> Hq] | [Hji Hj]];
           [discriminate |].
         destruct (writer_alone s i j (Storing r) _ HL Hp eq_refl Hj Hji).
         discriminate.
    + (* Returning *)
      eapply DataInv_goto; eauto; reflexivity || exact I.
    + (* Returned *)
      eapply DataInv_goto; eauto; reflexivity || exact I.
Qed.

Lemma Inv_run (m0 : tokenManager) (schedule : list action) :
  forall s, Inv m0 s -> Inv m0 (run s schedule).
Proof.
  induction schedule as [| a schedule IH]; intros s [HL HD];
    [split; assumption |].
  simpl. apply IH. split; [now apply LockInv_exec | now apply DataInv_exec].
Qed.

Lemma Inv_init (n : nat) (m0 : tokenManager) (t0 : Time) :
  (accessToken m0 = "" -> expiresAt m0 <= t0) ->
  Inv m0 (init n m0 t0).
Proof.
  intros H. split; [apply LockInv_init | now apply DataInv_init].
Qed.

(** *** While the cached token is valid *)

Lemma now_exec (s : state) (a : action) : now s <= now (exec s a).
Proof.
  destruct a as [d | i h]; simpl.
  - destruct (Z.leb_spec 0 d); simpl; lia.
  - destruct (pool s !! i) as [p |]; [| lia].
    destruct p; unfold Concurrent.move;
      repeat match goal with
             | |- context [if ?c then _ else _] => destruct c
             | |- context [match classify ?c with _ => _ end] =>
                 destruct (classify c)
             end; simpl; lia.
Qed.

Lemma now_run (schedule : list action) :
  forall s, now s <= now (run s schedule).
Proof.
  induction schedule as [| a schedule IH]; intros s; [simpl; lia |].
  change (run s (a :: schedule)) with (run (exec s a) schedule).
  pose proof (now_exec s a). specialize (IH (exec s a)). lia.
Qed.

(** One step taken while the cached token is valid: the manager stays,
    nothing is sent, and who returns returns the cached token. *)
Lemma quiet_exec (m0 : tokenManager) (s : state) (a : action) :
  Inv m0 s ->
  valid (mgr s) (now s) = true ->
  mgr (exec s a) = mgr s /\
  sent (exec s a) = sent s /\
  (returns (exec s a) = returns s \/
   exists i,
     returns (exec s a) = returns s ++ [(i, Ok (accessToken (mgr s)))]).
Proof.
  intros [HL HD] Hv. destruct a as [d | i h]; simpl.
  - destruct (0 <=? d); simpl; auto.
  - destruct (pool s !! i) as [p |] eqn:Hp; [| auto].
    pose proof (data_pc m0 s HD i p Hp) as Hi.
    destruct p as [| | token | | | | | | r | [token | e] |];
      unfold Concurrent.move; simpl in Hi; try congruence.
    + destruct (writer s); simpl; auto.
    + rewrite Hv. simpl. auto.
    + subst token. simpl. repeat split. right. eauto.
    + simpl. auto.
    + destruct (writer s || negb (Nat.eqb (readers s) 0)); simpl; auto.
    + rewrite Hv. simpl. auto.
    + exfalso. destruct Hi as (Hexp & _ & _).
      unfold valid, Before in Hv. apply andb_true_iff in Hv as [_ Hv].
      apply Z.ltb_lt in Hv. lia.
    + subst token. simpl. repeat split. right. eauto.
    + simpl. auto.
Qed.

Lemma quiet_run (m0 : tokenManager) (schedule : list action) :
  forall s,
    Inv m0 s ->
    valid (mgr s) (now (run s schedule)) = true ->
    mgr (run s schedule) = mgr s /\
    sent (run s schedule) = sent s /\
    exists rs,
      returns (run s schedule) = returns s ++ rs /\
      Forall (fun r => snd r = Ok (accessToken (mgr s))) rs.
Proof.
  induction schedule as [| a schedule IH]; intros s HI Hv.
  - simpl. split; [reflexivity | split; [reflexivity |]].
    exists []. split; [| constructor].
    now rewrite app_nil_r.
  - change (run s (a :: schedule)) with (run (exec s a) schedule) in *.
    assert (Hnow : valid (mgr s) (now s) = true).
    { apply (valid_true_earlier _ _ _ Hv).
      pose proof (now_exec s a). pose proof (now_run schedule (exec s a)).
      lia. }
    destruct (quiet_exec m0 s a HI Hnow) as (Hm & Hs & Hr).
    assert (HI' : Inv m0 (exec s a)).
    { destruct HI. split; [now apply LockInv_exec | now apply DataInv_exec]. }
    destruct (IH (exec s a) HI') as (Hm' & Hs' & rs & Hr' & Hall).
    { now rewrite Hm. }
    rewrite Hm', Hs', Hm, Hs. split; [reflexivity | split; [reflexivity |]].
    rewrite Hr'. rewrite Hm in Hall.
    destruct Hr as [-> | [i ->]].
    + exists rs. split; [reflexivity | assumption].
    + exists ((i, Ok (accessToken (mgr s))) :: rs).
      split; [now rewrite <- app_assoc | now constructor].
Qed.

(** *** Who changes the manager *)


(** A request leaves only from the goroutine that holds the lock
    exclusively and has just found the cached token invalid. *)
Lemma send_under_lock (m0 : tokenManager) (s : state) (a : action) :
Inv m0 s ->
sent (exec s a) <> sent s ->
valid (mgr s) (now s) = false /\
writer s = true /\
exists i h,
  a = Run i h /\ pool s !! i = Some Requesting /\
  sent (exec s a) = sent s ++ [buildRequest (mgr s)] /\
  forall j q, pool s !! j = Some q -> j <> i ->
              holdsR q = false /\ holdsW q = false.
Proof.
intros [HL HD] Hne. destruct a as [d | i h]; simpl in Hne.
- destruct (0 <=? d); simpl in Hne; congruence.
- destruct (pool s !! i) as [p |] eqn:Hp; [| congruence].
  assert (Hreq : p = Requesting).
  { destruct p; unfold Concurrent.move in Hne;
      repeat match type of Hne with
             | context [if ?c then _ else _] => destruct c
             | context [match classify ?c with _ => _ end] =>
                 destruct (classify c)
             end; simpl in Hne; try congruence; reflexivity. }
  subst p.
  split; [exact (data_pc m0 s HD i Requesting Hp) |].
  split; [exact (writer_held s i Requesting HL Hp eq_refl) |].
  exists i, h. split; [reflexivity |]. split; [assumption |].
  split.
  + simpl. rewrite Hp. unfold Concurrent.move.
    unfold Concurrent.move in Hne.
    destruct (negb (urlOK (tokenURL (mgr s)))); simpl in *;
      [congruence | reflexivity].
  + intros j q Hj Hji.
    exact (writer_alone s i j Requesting q HL Hp eq_refl Hj Hji).
Qed.



End Pool.

End ConcurrentProofs.

(** ** One goroutine alone is the sequential reading *)

Lemma runCall_cons (urlOK : string -> bool) (s : Concurrent.state)
  (a : Concurrent.action) (rest : list Concurrent.action) :
  runCall urlOK s (a :: rest) =
  if hasReturned s then s
  else runCall urlOK (Concurrent.exec urlOK s a) rest.
Proof. reflexivity. Qed.

Ltac solo_step :=
  rewrite runCall_cons;
  cbn -[Token.valid Token.classify Token.buildRequest Token.window
        Token.setExpiresAt Token.setAccessToken Z.leb Z.add runCall].

(** A lone goroutine stepping through the lines of [getToken] ends with
    the manager, the requests and the result of the sequential
    [getToken] that reads the same clock and gets the same answer, and
    with the mutex free. *)
Lemma solo_is_sequential (clock : nat -> Time) (urlOK : string -> bool)
  (endpoint : nat -> Token.tokenRequest -> Token.httpResult)
  (m : Token.tokenManager) (ps : list Token.tokenRequest) (k : nat)
  (d1 d2 : Duration) :
  0 <= d1 -> 0 <= d2 ->
  clock (S k) = clock k + d1 ->
  clock (S (S k)) = clock k + d1 + d2 ->
  let h := endpoint (length ps) (Token.buildRequest m) in
  let s := runCall urlOK (soloState m (clock k) ps) (soloSchedule d1 d2 h) in
  let out :=
    Token.getToken clock urlOK endpoint
      {| Token.tm := m; Token.posts := ps; Token.ticks := k |} in
  Concurrent.mgr s = Token.tm (snd out) /\
  Concurrent.sent s = Token.posts (snd out) /\
  Concurrent.returns s = [(0%nat, fst out)] /\
  Concurrent.writer s = false /\ Concurrent.readers s = 0%nat.
Proof.
  intros Hd1 Hd2 Hc1 Hc2 h s out. subst s out.
  apply Z.leb_le in Hd1, Hd2.
  unfold Token.getToken, Token.refreshToken, bind, ret, Token.readTM,
    Token.Now, Token.writeTM, Token.Do.
  cbn [Token.tm Token.posts Token.ticks].
  unfold soloSchedule, soloState.
  solo_step. solo_step.
  destruct (Token.valid m (clock k)) eqn:Hv1.
  { solo_step. solo_step. cbn. repeat split. }
  solo_step. solo_step. solo_step. rewrite Hd1. solo_step.
  rewrite Hc1.
  destruct (Token.valid m (clock k + d1)) eqn:Hv2.
  { solo_step. solo_step. cbn. repeat split. }
  solo_step.
  destruct (urlOK (Token.tokenURL m)) eqn:Hu; cbn [negb].
  2: { solo_step. solo_step. cbn. repeat split. }
  solo_step. fold h.
  destruct (Token.classify h) as [r | e] eqn:Hcl.
  2: { solo_step. rewrite Hd2. solo_step. solo_step. cbn. repeat split. }
  solo_step. rewrite Hd2. solo_step. solo_step.
  rewrite Hc2. cbn. repeat split.
Qed.

(** ** The token manager under concurrent callers *)

Section Cycle.

Variable urlOK : string -> bool.
Variable n : nat.
Variables clientID clientSecret tokenURL : string.
Variable t0 : Time.

Local Abbreviation m0 :=
  (Token.newTokenManager clientID clientSecret tokenURL).

Lemma reachable_Inv (schedule : list Concurrent.action) :
Token.zeroTime <= t0 ->
Invariants.Inv m0
  (Concurrent.run urlOK (Concurrent.init n m0 t0) schedule).
Proof.
intros H0. apply ConcurrentProofs.Inv_run, ConcurrentProofs.Inv_init.
intros _. exact H0.
Qed.

(** C2: take [n] goroutines on a fresh manager and any schedule, and a
    state [s1] it reaches.  A step that sends a request to the token
    endpoint is a step of the one goroutine that holds the lock
    exclusively, taken when the cached token is not valid.  And for as
    long as the token cached in [s1] has not expired (up to any later
    state [s2] whose clock is before the [expiresAt] of [s1]): no request
    leaves for the token endpoint and none is pending, the manager stays
    as it is, every call that returns returns the cached token, and a
    goroutine that took the exclusive lock finds that token on its second
    look and sends nothing.  So an expiry cycle holds the request that
    opened it and no other. *)
Theorem one_request_per_cycle (before during : list Concurrent.action) :
Token.zeroTime <= t0 ->
let s1 := Concurrent.run urlOK (Concurrent.init n m0 t0) before in
let s2 := Concurrent.run urlOK s1 during in
(forall a,
    Concurrent.sent (Concurrent.exec urlOK s1 a) <> Concurrent.sent s1 ->
    Token.valid (Concurrent.mgr s1) (Concurrent.now s1) = false /\
    Concurrent.writer s1 = true /\
    exists i h,
      a = Concurrent.Run i h /\
      Concurrent.pool s1 !! i = Some Concurrent.Requesting /\
      Concurrent.sent (Concurrent.exec urlOK s1 a) =
        Concurrent.sent s1 ++ [Token.buildRequest (Concurrent.mgr s1)] /\
      forall j q, Concurrent.pool s1 !! j = Some q -> j <> i ->
                  Concurrent.holdsR q = false /\
                  Concurrent.holdsW q = false) /\
(Token.valid (Concurrent.mgr s1) (Concurrent.now s2) = true ->
 Concurrent.sent s2 = Concurrent.sent s1 /\
 Concurrent.mgr s2 = Concurrent.mgr s1 /\
 (exists rs,
     Concurrent.returns s2 = Concurrent.returns s1 ++ rs /\
     Forall (fun r => snd r =
                      Ok (Token.accessToken (Concurrent.mgr s1))) rs) /\
 (forall i p, Concurrent.pool s2 !! i = Some p ->
              p <> Concurrent.Requesting /\ p <> Concurrent.Awaiting) /\
 (forall i h,
     Concurrent.pool s2 !! i = Some Concurrent.Rechecking ->
     let s3 := Concurrent.exec urlOK s2 (Concurrent.Run i h) in
     Concurrent.pool s3 !! i =
       Some (Concurrent.Returning
               (Ok (Token.accessToken (Concurrent.mgr s1)))) /\
     Concurrent.sent s3 = Concurrent.sent s1)).
Proof.
intros H0 s1 s2.
assert (HI1 : Invariants.Inv m0 s1) by now apply reachable_Inv.
split; [intros a; now apply (ConcurrentProofs.send_under_lock urlOK m0) |].
intros Hv.
assert (HI2 : Invariants.Inv m0 s2)
  by now apply ConcurrentProofs.Inv_run.
destruct (ConcurrentProofs.quiet_run urlOK m0 during s1 HI1 Hv)
  as (Hm & Hs & Hr).
fold s2 in Hm, Hs, Hr.
split; [exact Hs |]. split; [exact Hm |]. split; [exact Hr |].
rewrite <- Hm in Hv. split.
- intros i p Hp. destruct HI2 as [_ HD].
  pose proof (Invariants.data_pc m0 s2 HD i p Hp) as Hi.
  split; intros ->; simpl in Hi; congruence.
- intros i h Hp s3. subst s3. simpl. rewrite Hp.
  unfold Concurrent.move. rewrite Hv. simpl.
  split; [| exact Hs]. rewrite Hm.
  apply list_lookup_insert_eq. eapply lookup_lt_Some; eassumption.
Qed.

End Cycle.

Lemma one_request_per_cycle_witness :
let s1 :=
  Concurrent.run (fun _ => true) (Concurrent.init 2 sampleManager 1000)
    raceUntilStored in
let s2 := Concurrent.run (fun _ => true) s1 raceAfterStored in
length (Concurrent.sent s1) = 1%nat /\
Concurrent.sent s2 = Concurrent.sent s1 /\
Concurrent.mgr s2 = Concurrent.mgr s1 /\
(exists rs,
    Concurrent.returns s2 = Concurrent.returns s1 ++ rs /\
    Forall (fun r => snd r =
                     Ok (Token.accessToken (Concurrent.mgr s1))) rs).
Proof.
intros s1 s2.
destruct (one_request_per_cycle (fun _ => true) 2 "id" "secret"
            "https://apis.usps.com/oauth2/v3/token" 1000
            raceUntilStored raceAfterStored) as (_ & H).
- vm_compute. discriminate.
- destruct H as (Hs & Hm & Hr & _); [vm_compute; reflexivity |].
  split; [reflexivity |]. split; [exact Hs |]. split; [exact Hm | exact Hr].
Defined.



(** * Further properties *)

(** ** token.go, one caller *)

Section MoreOneCaller.

Variable clock : nat -> Time.
Variable urlOK : string -> bool.
Variable endpoint : nat -> Token.tokenRequest -> Token.httpResult.

Local Abbreviation getToken := (Token.getToken clock urlOK endpoint).

(** The five ways through [getToken]. *)
Lemma getToken_outcome (w : Token.World) :
  let m := Token.tm w in
  let k := Token.ticks w in
  let req := Token.buildRequest m in
  getToken w =
    if Token.valid m (clock k)
    then (Ok (Token.accessToken m), Token.mkWorld m (Token.posts w) (S k))
    else if Token.valid m (clock (S k))
    then (Ok (Token.accessToken m),
          Token.mkWorld m (Token.posts w) (S (S k)))
    else if negb (urlOK (Token.tokenURL m))
    then (Err ErrNewRequest, Token.mkWorld m (Token.posts w) (S (S k)))
    else
      match Token.classify (endpoint (length (Token.posts w)) req) with
      | Err e => (Err e, Token.mkWorld m (Token.posts w ++ [req]) (S (S k)))
      | Ok r =>
          (Ok (Token.AccessToken r),
           Token.mkWorld (Invariants.refreshed m r (clock (S (S k))))
             (Token.posts w ++ [req]) (S (S (S k))))
      end.
Proof.
  intros m k req. subst m k req.
  unfold Token.getToken, Token.refreshToken, bind, ret, Token.readTM,
    Token.Now, Token.writeTM, Token.Do.
  cbn [Token.tm Token.posts Token.ticks].
  destruct (Token.valid (Token.tm w) (clock (Token.ticks w)));
    [reflexivity |].
  cbn [Token.tm Token.posts Token.ticks].
  destruct (Token.valid (Token.tm w) (clock (S (Token.ticks w))));
    [reflexivity |].
  destruct (negb (urlOK (Token.tokenURL (Token.tm w)))); [reflexivity |].
  cbn [Token.tm Token.posts Token.ticks].
  destruct (Token.classify _); reflexivity.
Qed.

Lemma valid_nonempty (m : Token.tokenManager) (t : Time) :
  Token.valid m t = true -> Token.accessToken m <> "".
Proof.
  unfold Token.valid. intros H. apply andb_true_iff in H as [H _].
  now apply nonempty_true.
Qed.

(** The token of a successful call is not empty and is the cached one
    when the call returns. *)
Lemma getToken_Ok_cached (w : Token.World) (token : string) :
  fst (getToken w) = Ok token ->
  token <> "" /\ Token.accessToken (Token.tm (snd (getToken w))) = token.
Proof.
  rewrite getToken_outcome.
  destruct (Token.valid (Token.tm w) (clock (Token.ticks w))) eqn:Hv1.
  { simpl. intros [= <-]. split; [eapply valid_nonempty; eauto | auto]. }
  destruct (Token.valid (Token.tm w) (clock (S (Token.ticks w)))) eqn:Hv2.
  { simpl. intros [= <-]. split; [eapply valid_nonempty; eauto | auto]. }
  destruct (negb (urlOK (Token.tokenURL (Token.tm w)))); [discriminate |].
  destruct (Token.classify _) as [r | e] eqn:Hc; [| discriminate].
  simpl. intros [= <-]. apply classify_Ok in Hc as [Hne _].
  split; [assumption | reflexivity].
Qed.

(** X1: when [getToken] returns a token without an error, the token is
    not empty and it is the one the manager holds after the call. *)
Theorem getToken_token_is_cached_and_nonempty (w : Token.World)
  (token : string) :
  fst (getToken w) = Ok token ->
  token <> "" /\ Token.accessToken (Token.tm (snd (getToken w))) = token.
Proof. apply getToken_Ok_cached. Qed.


(** X3: a cache that is not valid is not served.  If the test fails at
    the first reading of a clock that does not run backwards, a token
    comes back only after a request has been posted, and it is the access
    token of the 200 answer to that request. *)
Theorem getToken_stale_cache_not_served (w : Token.World) (token : string) :
  Token.valid (Token.tm w) (clock (Token.ticks w)) = false ->
  clock (Token.ticks w) <= clock (S (Token.ticks w)) ->
  fst (getToken w) = Ok token ->
  let req := Token.buildRequest (Token.tm w) in
  Token.posts (snd (getToken w)) = Token.posts w ++ [req] /\
  exists body r,
    endpoint (length (Token.posts w)) req = Token.Response 200 body /\
    Token.Decode body = Some r /\ Token.AccessToken r = token.
Proof.
  intros Hv1 Hle. rewrite getToken_outcome, Hv1.
  rewrite (ConcurrentProofs.valid_false_later _ _ _ Hv1 Hle).
  destruct (negb _); [discriminate |].
  destruct (Token.classify _) as [r | e] eqn:Hc; [| discriminate].
  simpl. intros [= <-]. split; [reflexivity |].
  apply classify_Ok in Hc as (_ & body & Hb & Hd). eauto.
Qed.

(** X4: after a call that returned a token, the next call made while the
    clock is before the stored [expiresAt] returns the same token and
    posts nothing. *)
Theorem getToken_next_call_hits_cache (w : Token.World) (token : string) :
  fst (getToken w) = Ok token ->
  let w1 := snd (getToken w) in
  clock (Token.ticks w1) < Token.expiresAt (Token.tm w1) ->
  fst (getToken w1) = Ok token /\
  Token.posts (snd (getToken w1)) = Token.posts w1 /\
  Token.tm (snd (getToken w1)) = Token.tm w1.
Proof.
  intros Hok w1 Hlt. destruct (getToken_Ok_cached w token Hok) as [Hne Hc].
  fold w1 in Hc.
  assert (Hv : Token.valid (Token.tm w1) (clock (Token.ticks w1)) = true).
  { apply valid_true. rewrite Hc. split; assumption. }
  rewrite (getToken_outcome w1), Hv. simpl. rewrite Hc. repeat split.
Qed.

Lemma classify_good (token : string) (token_type : option string) (n : Z) :
  token <> "" -> - 2 ^ 63 <= n < 2 ^ 63 ->
  Token.classify
    (Token.Response 200 (Token.JSONObject (Some token) token_type (Some n)))
  = Ok (Token.mkTokenResponse token (default "" token_type) n).
Proof.
  intros Hne Hn.
  assert (Hr : (- 2 ^ 63 <=? n) && (n <? 2 ^ 63) = true).
  { apply andb_true_iff. rewrite Z.leb_le, Z.ltb_lt. lia. }
  apply String.eqb_neq in Hne.
  unfold Token.classify, Token.Decode.
  change (negb (200 =? 200)) with false. cbv iota.
  change (default 0 (Some n)) with n. rewrite Hr.
  change (default "" (Some token)) with token.
  cbn [Token.AccessToken]. rewrite Hne. reflexivity.
Qed.

(** X5: a token whose lifetime does not exceed the refresh buffer is
    never served from the cache.  After a refresh that stored a token
    with [0 < expires_in <= 300], the cache is invalid at the clock
    reading of line 119 and at every later time. *)
Theorem short_lived_token_is_never_cached (w : Token.World)
  (token : string) (token_type : option string) (n : Z) (t : Time) :
  Token.valid (Token.tm w) (clock (Token.ticks w)) = false ->
  Token.valid (Token.tm w) (clock (S (Token.ticks w))) = false ->
  urlOK (Token.tokenURL (Token.tm w)) = true ->
  endpoint (length (Token.posts w)) (Token.buildRequest (Token.tm w)) =
    Token.Response 200 (Token.JSONObject (Some token) token_type (Some n)) ->
  token <> "" ->
  Token.refreshBuffer (Token.tm w) = 5 * Minute ->
  0 < n <= 300 ->
  clock (S (S (Token.ticks w))) <= t ->
  fst (getToken w) = Ok token /\
  Token.valid (Token.tm (snd (getToken w))) t = false.
Proof.
  intros Hv1 Hv2 Hu He Htok Hbuf Hn Ht.
  rewrite getToken_outcome, Hv1, Hv2, Hu, He. cbn [negb].
  rewrite (classify_good token token_type n Htok) by lia.
  split; [reflexivity |].
  cbn [snd Token.tm]. unfold Token.valid. apply andb_false_iff. right.
  unfold Before. apply Z.ltb_ge.
  unfold Invariants.refreshed, Token.setExpiresAt, Token.setAccessToken.
  cbn [Token.expiresAt Token.refreshBuffer]. rewrite Hbuf.
  unfold Add, Token.window. cbn [Token.ExpiresIn].
  unfold dmul. rewrite (wrap64_small (n * Second))
    by (unfold Second; lia).
  destruct (Z.eqb_spec (n * Second) 0) as [H0 | H0];
    [unfold Second in H0; lia |].
  unfold dsub. rewrite wrap64_small by (unfold Minute, Second; lia).
  unfold Minute, Second. lia.
Qed.

End MoreOneCaller.

Lemma getToken_token_is_cached_and_nonempty_witness :
  "T" <> "" /\
  Token.accessToken
    (Token.tm
       (snd (Token.getToken (fun k => Z.of_nat k * Second) (fun _ => true)
               (fun _ _ => goodAnswer) freshWorld))) = "T".
Proof.
  apply (getToken_token_is_cached_and_nonempty
           (fun k => Z.of_nat k * Second) (fun _ => true)
           (fun _ _ => goodAnswer) freshWorld "T").
  vm_compute. reflexivity.
Defined.

Lemma getToken_stale_cache_not_served_witness :
  Token.posts
    (snd (Token.getToken (fun k => Z.of_nat k * Second) (fun _ => true)
            (fun _ _ => goodAnswer) freshWorld))
  = [] ++ [Token.buildRequest sampleManager] /\
  exists body r,
    goodAnswer = Token.Response 200 body /\
    Token.Decode body = Some r /\ Token.AccessToken r = "T".
Proof.
  apply (getToken_stale_cache_not_served
           (fun k => Z.of_nat k * Second) (fun _ => true)
           (fun _ _ => goodAnswer) freshWorld "T").
  - reflexivity.
  - vm_compute. discriminate.
  - vm_compute. reflexivity.
Defined.

Lemma getToken_next_call_hits_cache_witness :
  let clock := fun k => Z.of_nat k * Second in
  let w1 :=
    snd (Token.getToken clock (fun _ => true) (fun _ _ => goodAnswer)
           freshWorld) in
  fst (Token.getToken clock (fun _ => true) (fun _ _ => goodAnswer) w1)
  = Ok "T" /\
  Token.posts
    (snd (Token.getToken clock (fun _ => true) (fun _ _ => goodAnswer) w1))
  = Token.posts w1 /\
  Token.tm
    (snd (Token.getToken clock (fun _ => true) (fun _ _ => goodAnswer) w1))
  = Token.tm w1.
Proof.
  intros clock w1.
  apply (getToken_next_call_hits_cache clock (fun _ => true)
           (fun _ _ => goodAnswer) freshWorld "T").
  - vm_compute. reflexivity.
  - vm_compute. reflexivity.
Defined.

Lemma short_lived_token_is_never_cached_witness :
  let clock := fun k => Z.of_nat k * Second in
  let endpoint := fun (_ : nat) (_ : Token.tokenRequest) =>
    Token.Response 200 (Token.JSONObject (Some "T") None (Some 60)) in
  fst (Token.getToken clock (fun _ => true) endpoint freshWorld) = Ok "T" /\
  Token.valid
    (Token.tm (snd (Token.getToken clock (fun _ => true) endpoint freshWorld)))
    (10 * Second) = false.
Proof.
  intros clock endpoint.
  apply (short_lived_token_is_never_cached clock (fun _ => true) endpoint
           freshWorld "T" None 60 (10 * Second)).
  - reflexivity.
  - reflexivity.
  - reflexivity.
  - reflexivity.
  - discriminate.
  - reflexivity.
  - lia.
  - vm_compute. discriminate.
Defined.

(** ** token.go, many callers *)

Module MoreConcurrent.
Import Token Concurrent Invariants ConcurrentProofs.

Lemma cnt_pos_exists (f : pc -> bool) (l : list pc) :
  cnt f l <> 0%nat -> exists i p, l !! i = Some p /\ f p = true.
Proof.
  induction l as [| x l IH]; simpl; intros H; [congruence |].
  destruct (f x) eqn:Hx.
  - exists 0%nat, x. split; [reflexivity | assumption].
  - destruct IH as (i & p & Hi & Hp); [lia |].
    exists (S i), p. split; assumption.
Qed.

Section MorePool.

Variable urlOK : string -> bool.

Local Abbreviation exec := (Concurrent.exec urlOK).
Local Abbreviation run := (Concurrent.run urlOK).

Lemma LockInv_run (schedule : list action) :
  forall s, LockInv s -> LockInv (run s schedule).
Proof.
  induction schedule as [| a schedule IH]; intros s H; [exact H |].
  simpl. apply IH. now apply LockInv_exec.
Qed.

Lemma length_pool_exec (s : state) (a : action) :
  length (pool (exec s a)) = length (pool s).
Proof.
  destruct a as [d | i h]; simpl.
  - destruct (0 <=? d); reflexivity.
  - destruct (pool s !! i) as [p |]; [| reflexivity].
    destruct p; unfold move;
      repeat match goal with
             | |- context [if ?c then _ else _] => destruct c
             | |- context [match classify ?c with _ => _ end] =>
                 destruct (classify c)
             end; simpl; rewrite ?length_insert; reflexivity.
Qed.

Lemma length_pool_run (schedule : list action) :
  forall s, length (pool (run s schedule)) = length (pool s).
Proof.
  induction schedule as [| a schedule IH]; intros s; [reflexivity |].
  change (run s (a :: schedule)) with (run (exec s a) schedule).
  rewrite IH. apply length_pool_exec.
Qed.

(** A goroutine that can move does move: its place changes. *)
Lemma enabled_moves (s : state) (i : nat) (h : httpResult) (p : pc) :
  pool s !! i = Some p -> enabled s p = true ->
  exists q, pool (exec s (Run i h)) !! i = Some q /\ q <> p.
Proof.
  intros Hp He.
  assert (Hlt : (i < length (pool s))%nat)
    by (eapply lookup_lt_Some; eassumption).
  simpl. rewrite Hp.
  destruct p; unfold move; simpl in He;
    repeat match goal with
           | H : negb ?c = true |- _ =>
               apply negb_true_iff in H; rewrite H
           | |- context [if ?c then _ else _] => destruct c
           | |- context [match classify ?c with _ => _ end] =>
               destruct (classify c)
           end;
    (eexists; split;
     [simpl; apply list_lookup_insert_eq; assumption | discriminate]).
Qed.

(** X6: mutual exclusion.  In every state a schedule reaches, a goroutine
    between [tm.mu.Lock()] and the deferred [Unlock] is alone: no other
    goroutine holds the lock, shared or exclusive. *)
Theorem exclusive_holder_is_alone (n : nat) (m0 : tokenManager) (t0 : Time)
  (schedule : list action) (i j : nat) (p q : pc) :
  let s := run (init n m0 t0) schedule in
  pool s !! i = Some p -> holdsW p = true ->
  pool s !! j = Some q -> j <> i ->
  holdsR q = false /\ holdsW q = false.
Proof.
  intros s Hi Hp Hj Hji.
  apply (writer_alone s i j p q); try assumption.
  apply LockInv_run, LockInv_init.
Qed.

(** X7: the mutex never deadlocks.  In every state a schedule reaches
    from a pool that is not empty, some goroutine can move, whatever the
    endpoint answers; and as long as the lock is held in either way, a
    holder is such a goroutine. *)
Theorem some_goroutine_can_move (n : nat) (m0 : tokenManager) (t0 : Time)
  (schedule : list action) :
  (0 < n)%nat ->
  let s := run (init n m0 t0) schedule in
  exists i p, pool s !! i = Some p /\
    (writer s = true \/ readers s <> 0%nat ->
     holdsW p = true \/ holdsR p = true) /\
    forall h, exists q, pool (exec s (Run i h)) !! i = Some q /\ q <> p.
Proof.
  intros Hn s.
  assert (HL : LockInv s) by apply LockInv_run, LockInv_init.
  assert (Hlen : length (pool s) = n).
  { subst s. rewrite length_pool_run. simpl. apply length_replicate. }
  destruct HL as [HR HW HX].
  destruct (writer s) eqn:Hw.
  - destruct (cnt_pos_exists holdsW (pool s)) as (i & p & Hi & Hp);
      [lia |].
    exists i, p. split; [assumption |]. split; [now left |]. intros h.
    apply enabled_moves; [assumption |]. destruct p; try discriminate;
      reflexivity.
  - destruct (Nat.eq_dec (readers s) 0%nat) as [Hr0 | Hr0].
    + destruct (lookup_lt_is_Some_2 (pool s) 0%nat) as [p Hp0]; [lia |].
      exists 0%nat, p. split; [assumption |].
      split; [intros [H | H]; [discriminate | contradiction] |].
      intros h. apply enabled_moves; [assumption |].
      assert (HpW : holdsW p = false)
        by (apply (cnt_zero holdsW (pool s) 0%nat); assumption).
      assert (HpR : holdsR p = false)
        by (apply (cnt_zero holdsR (pool s) 0%nat); [lia | assumption]).
      destruct p; try discriminate; simpl; rewrite ?Hw, ?Hr0; reflexivity.
    + destruct (cnt_pos_exists holdsR (pool s)) as (i & p & Hi & Hp);
        [lia |].
      exists i, p. split; [assumption |]. split; [now right |]. intros h.
      apply enabled_moves; [assumption |]. destruct p; try discriminate;
        reflexivity.
Qed.

(** *** The tokens in sight *)

Lemma TokensInv_goto (P : string -> Prop) (s s' : state) (i : nat)
  (p q : pc) :
  TokensInv P s ->
  pool s !! i = Some p ->
  pool s' = pool s -> mgr s' = mgr s ->
  (forall token, carried q = Some token -> P token) ->
  (forall j token, In (j, Ok token) (returns s') ->
                   In (j, Ok token) (returns s) \/ P token) ->
  TokensInv P (goto s' i q).
Proof.
  intros [Hc Hp Hr] Hi Hpool Hmgr Hq Hret. split; simpl.
  - rewrite Hmgr. exact Hc.
  - rewrite Hpool. intros j pj token Hj Hcar.
    apply lookup_goto in Hj as [[-> ->] | [Hji Hj]].
    + now apply Hq.
    + exact (Hp j pj token Hj Hcar).
  - intros j token Hin. destruct (Hret j token Hin) as [H | H];
      [exact (Hr j token H) | exact H].
Qed.

Lemma TokensInv_exec (P : string -> Prop) (m0 : tokenManager) (s : state)
  (a : action) :
  Inv m0 s -> TokensInv P s ->
  (forall i h r, a = Run i h -> classify h = Ok r -> P (AccessToken r)) ->
  TokensInv P (exec s a).
Proof.
  intros [HL HD] HT Hnew. pose proof HT as [Hc Hp Hr].
  destruct a as [d | i h]; simpl.
  - destruct (0 <=? d); [split |]; assumption.
  - destruct (pool s !! i) as [p |] eqn:Hi; [| assumption].
    pose proof (data_pc m0 s HD i p Hi) as Hpc.
    destruct p; unfold move; simpl in Hpc.
    + destruct (writer s); [assumption |].
      (eapply (TokensInv_goto P s _ i _ _ HT Hi);
         [reflexivity | reflexivity | simpl | simpl]);
        try (intros ? Hcar; discriminate Hcar); auto.
    + destruct (valid (mgr s) (now s)) eqn:Hv;
        (eapply (TokensInv_goto P s _ i _ _ HT Hi);
         [reflexivity | reflexivity | simpl | simpl]);
        try (intros ? Hcar; discriminate Hcar); auto.
      intros token Hcar. injection Hcar as <-. apply Hc.
      unfold valid in Hv. apply andb_true_iff in Hv as [Hv _].
      now apply nonempty_true.
    + eapply (TokensInv_goto P s _ i _ _ HT Hi);
        [reflexivity | reflexivity | simpl | simpl].
      * intros tok Hcar. injection Hcar as <-. exact (Hp i (Hit token) token Hi eq_refl).
      * intros j tok Hin. apply in_app_or in Hin as [Hin | [[= <- <-] | []]];
          [now left | right].
        exact (Hp i (Hit token) token Hi eq_refl).
    + (eapply (TokensInv_goto P s _ i _ _ HT Hi);
         [reflexivity | reflexivity | simpl | simpl]);
        try (intros ? Hcar; discriminate Hcar); auto.
    + destruct (writer s || negb (Nat.eqb (readers s) 0)); [assumption |].
      (eapply (TokensInv_goto P s _ i _ _ HT Hi);
         [reflexivity | reflexivity | simpl | simpl]);
        try (intros ? Hcar; discriminate Hcar); auto.
    + destruct (valid (mgr s) (now s)) eqn:Hv;
        (eapply (TokensInv_goto P s _ i _ _ HT Hi);
         [reflexivity | reflexivity | simpl | simpl]);
        try (intros ? Hcar; discriminate Hcar); auto.
      intros token Hcar. injection Hcar as <-. apply Hc.
      unfold valid in Hv. apply andb_true_iff in Hv as [Hv _].
      now apply nonempty_true.
    + destruct (negb (urlOK (tokenURL (mgr s))));
        (eapply (TokensInv_goto P s _ i _ _ HT Hi);
         [reflexivity | reflexivity | simpl | simpl]);
        try (intros ? Hcar; discriminate Hcar); auto.
    + destruct (classify h) as [r | e] eqn:Hcl.
      * pose proof (Hnew i h r eq_refl Hcl) as HPr.
        split; simpl.
        -- intros _. exact HPr.
        -- intros j pj token Hj Hcar.
           apply lookup_goto in Hj as [[-> ->] | [Hji Hj]].
           ++ simpl in Hcar. injection Hcar as <-. exact HPr.
           ++ exact (Hp j pj token Hj Hcar).
        -- exact Hr.
      * (eapply (TokensInv_goto P s _ i _ _ HT Hi);
         [reflexivity | reflexivity | simpl | simpl]);
        try (intros ? Hcar; discriminate Hcar); auto.
    + destruct Hpc as (_ & Htok & Hne).
      split; simpl.
      * intros _. rewrite Htok. exact (Hp i (Storing r) _ Hi eq_refl).
      * intros j pj token Hj Hcar.
        apply lookup_goto in Hj as [[-> ->] | [Hji Hj]].
        -- simpl in Hcar. injection Hcar as <-. rewrite Htok.
           exact (Hp i (Storing r) _ Hi eq_refl).
        -- exact (Hp j pj token Hj Hcar).
      * exact Hr.
    + destruct res as [tok | e].
      * eapply (TokensInv_goto P s _ i _ _ HT Hi);
          [reflexivity | reflexivity | simpl | simpl].
        -- intros token Hcar. injection Hcar as <-.
           exact (Hp i (Returning (Ok tok)) tok Hi eq_refl).
        -- intros j token Hin.
           apply in_app_or in Hin as [Hin | [[= <- <-] | []]];
             [now left | right].
           exact (Hp i (Returning (Ok tok)) tok Hi eq_refl).
      * eapply (TokensInv_goto P s _ i _ _ HT Hi);
          [reflexivity | reflexivity | simpl | simpl].
        -- intros token Hcar. discriminate Hcar.
        -- intros j token Hin.
           apply in_app_or in Hin as [Hin | [Hin | []]];
             [now left | discriminate Hin].
    + (eapply (TokensInv_goto P s _ i _ _ HT Hi);
         [reflexivity | reflexivity | simpl | simpl]);
        try (intros ? Hcar; discriminate Hcar); auto.
Qed.

Lemma TokensInv_run (P : string -> Prop) (m0 : tokenManager)
  (schedule : list action) :
  forall s,
    Inv m0 s -> TokensInv P s ->
    (forall i h r, In (Run i h) schedule -> classify h = Ok r ->
                   P (AccessToken r)) ->
    TokensInv P (run s schedule).
Proof.
  induction schedule as [| a schedule IH]; intros s HI HT Hnew;
    [exact HT |].
  change (run s (a :: schedule)) with (run (exec s a) schedule).
  apply IH.
  - destruct HI. split; [now apply LockInv_exec | now apply DataInv_exec].
  - apply (TokensInv_exec P m0); try assumption.
    intros i h r -> Hc. apply (Hnew i h r); [now left | assumption].
  - intros i h r Hin. apply (Hnew i h r). now right.
Qed.

(** X8: no token is made up.  Every token a call of [getToken] returned,
    in any state a schedule reaches from a fresh manager, is not empty and
    is the access token of a response that the schedule delivered and
    that passed the checks of lines 99-111. *)
Theorem returned_tokens_were_issued (n : nat)
  (clientID clientSecret tokenURL : string) (t0 : Time)
  (schedule : list action) (i : nat) (token : string) :
  zeroTime <= t0 ->
  let s := run (init n (newTokenManager clientID clientSecret tokenURL) t0)
             schedule in
  In (i, Ok token) (returns s) ->
  token <> "" /\ issuedIn schedule token.
Proof.
  intros H0 s Hin.
  set (P := fun tok : string => tok <> "" /\ issuedIn schedule tok).
  assert (HT : TokensInv P s).
  { apply (TokensInv_run P (newTokenManager clientID clientSecret tokenURL)).
    - apply Inv_init. intros _. exact H0.
    - split; simpl.
      + congruence.
      + intros j p tok Hj. apply lookup_replicate in Hj as [-> _].
        discriminate.
      + intros j tok [].
    - intros j h r Hj Hc. split.
      + now apply classify_Ok in Hc as [Hne _].
      + exists j, h, r. repeat split; assumption. }
  exact (tokens_returned P s HT i token Hin).
Qed.

(** *** The requests that leave *)






End MorePool.

End MoreConcurrent.

Lemma exclusive_holder_is_alone_witness :
  Concurrent.holdsR Concurrent.Locking = false /\
  Concurrent.holdsW Concurrent.Locking = false.
Proof.
  apply (MoreConcurrent.exclusive_holder_is_alone (fun _ => true) 2
           sampleManager 1000 raceUntilStored 0 1
           (Concurrent.Returning (Ok "T")) Concurrent.Locking).
  - vm_compute. reflexivity.
  - reflexivity.
  - vm_compute. reflexivity.
  - discriminate.
Defined.

Lemma some_goroutine_can_move_witness :
  let s :=
    Concurrent.run (fun _ => true) (Concurrent.init 2 sampleManager 1000)
      raceUntilStored in
  exists i p, Concurrent.pool s !! i = Some p /\
    (Concurrent.writer s = true \/ Concurrent.readers s <> 0%nat ->
     Concurrent.holdsW p = true \/ Concurrent.holdsR p = true) /\
    forall h, exists q,
      Concurrent.pool (Concurrent.exec (fun _ => true) s (Concurrent.Run i h))
        !! i = Some q /\ q <> p.
Proof.
  apply (MoreConcurrent.some_goroutine_can_move (fun _ => true) 2
           sampleManager 1000 raceUntilStored).
  lia.
Defined.

Lemma returned_tokens_were_issued_witness :
  "T" <> "" /\ issuedIn (raceUntilStored ++ raceAfterStored) "T".
Proof.
  apply (MoreConcurrent.returned_tokens_were_issued (fun _ => true) 2
           "id" "secret" "https://apis.usps.com/oauth2/v3/token" 1000
           (raceUntilStored ++ raceAfterStored) 1 "T").
  - vm_compute. discriminate.
  - vm_compute. right. left. reflexivity.
Defined.


(** ** client.go: what [ValidateAddress] returns *)

Section MoreClientCalls.

Variable clock : nat -> Time.
Variable urlOK : string -> bool.
Variable endpoint : nat -> Token.tokenRequest -> Token.httpResult.
Variable unicodeUpper : string -> string.
Variable server : nat -> Client.wireRequest -> Client.getResult.

Local Abbreviation ValidateAddress :=
  (Client.ValidateAddress clock urlOK endpoint unicodeUpper server).
Local Abbreviation GetAddressWithResponse :=
  (Client.GetAddressWithResponse clock urlOK endpoint server).
Local Abbreviation getToken := (Token.getToken clock urlOK endpoint).
Local Abbreviation upper := (ToUpper unicodeUpper).

(** The two ways through the generated client. *)
Lemma GetAddressWithResponse_outcome (p : GetAddressParams.t)
  (w : Client.World) :
  GetAddressWithResponse p w =
    match fst (getToken (Client.token w)) with
    | Err e =>
        (Err (ErrAccessToken e),
         Client.mkWorld (Client.heap w) (snd (getToken (Client.token w)))
           (Client.calls w ++ [p]) (Client.wire w))
    | Ok token =>
        let req :=
          Client.mkWireRequest (queryOf (Client.heap w) p)
            (String.append "Bearer " token) in
        (match server (length (Client.wire w)) req with
         | Client.GetError => Err ErrTransport
         | Client.GetResponse resp => Ok resp
         end,
         Client.mkWorld (Client.heap w) (snd (getToken (Client.token w)))
           (Client.calls w ++ [p]) (Client.wire w ++ [req]))
    end.
Proof.
  unfold Client.GetAddressWithResponse, bind, Client.logCall.
  rewrite !optionalParam_eq. cbn [Client.heap].
  unfold Client.requestEditor, bind, Client.liftToken, ret.
  cbn [Client.token Client.heap Client.calls Client.wire].
  destruct (Token.getToken clock urlOK endpoint (Client.token w))
    as [[token | e] t]; cbn [fst snd].
  - unfold Client.DoGet. cbn [Client.wire Client.heap Client.calls
                              Client.token].
    unfold queryOf.
    match goal with
    | |- context [server ?n ?r] => destruct (server n r)
    end; reflexivity.
  - reflexivity.
Qed.

Opaque Client.GetAddressWithResponse.

(** With its preconditions met, [ValidateAddress] returns what
    [interpret] makes of the generated client's answer. *)
Lemma ValidateAddress_result (l : loc) (w : Client.World) :
  Address.StreetAddress (Client.heap w l) <> "" ->
  String.length (Address.State (Client.heap w l)) = 2%nat ->
  fst (ValidateAddress (Some l) w) =
  interpret (fst (GetAddressWithResponse
                    (paramsOf upper l (Client.heap w l)) w)).
Proof.
  intros Hs Hst.
  unfold Client.ValidateAddress, bind, Client.load. cbv zeta.
  apply String.eqb_neq in Hs. rewrite Hs.
  assert (Hne : String.eqb (Address.State (Client.heap w l)) "" = false).
  { apply String.eqb_neq. intros E. rewrite E in Hst. discriminate. }
  rewrite Hne, Hst. unfold paramsOf, ptrIf. cbn [readField].
  destruct (String.eqb (Address.SecondaryAddress _) "");
    destruct (String.eqb (Address.City _) "");
    destruct (String.eqb (Address.ZIPCode _) "");
    destruct (String.eqb (Address.Firm _) "");
    destruct (String.eqb (Address.Urbanization _) "");
    cbn -[convertError convertResponse ToUpper interpret];
    match goal with
    | |- fst (let '(_, _) := ?g in _) = interpret (fst ?g') =>
        change g' with g; destruct g as [[resp | err] w']
    end;
    cbn -[convertError convertResponse]; try reflexivity;
    unfold firstError;
    (destruct (negb _);
     [ destruct (GetAddressResponse.JSON400 resp); [reflexivity |];
       destruct (GetAddressResponse.JSON401 resp); [reflexivity |];
       destruct (GetAddressResponse.JSON403 resp); [reflexivity |];
       destruct (GetAddressResponse.JSON404 resp); [reflexivity |];
       destruct (GetAddressResponse.JSON429 resp); [reflexivity |];
       destruct (GetAddressResponse.JSON503 resp); reflexivity
     | destruct (GetAddressResponse.JSON200 resp); reflexivity ]).
Qed.

Transparent Client.GetAddressWithResponse.

Lemma preconditions_dec (a : Address.t) :
  (Address.StreetAddress a <> "" /\
   String.length (Address.State a) = 2%nat) \/
  (Address.StreetAddress a = "" \/ Address.State a = "" \/
   String.length (Address.State a) <> 2%nat).
Proof.
  destruct (String.eqb_spec (Address.StreetAddress a) ""); [right; auto |].
  destruct (Nat.eq_dec (String.length (Address.State a)) 2%nat);
    [left; auto | right; auto].
Qed.

(** Everything about a call whose preconditions are met. *)
Lemma ValidateAddress_accepted (l : loc) (w : Client.World) :
  Address.StreetAddress (Client.heap w l) <> "" ->
  String.length (Address.State (Client.heap w l)) = 2%nat ->
  let p := paramsOf upper l (Client.heap w l) in
  let out := getToken (Client.token w) in
  ValidateAddress (Some l) w =
    match fst out with
    | Err e =>
        (Err (ErrRequestFailed (ErrAccessToken e)),
         Client.mkWorld (Client.heap w) (snd out) (Client.calls w ++ [p])
           (Client.wire w))
    | Ok token =>
        let req :=
          Client.mkWireRequest (queryOf (Client.heap w) p)
            (String.append "Bearer " token) in
        (interpret
           match server (length (Client.wire w)) req with
           | Client.GetError => Err ErrTransport
           | Client.GetResponse resp => Ok resp
           end,
         Client.mkWorld (Client.heap w) (snd out) (Client.calls w ++ [p])
           (Client.wire w ++ [req]))
    end.
Proof.
  intros Hs Hl p out.
  rewrite (surjective_pairing (ValidateAddress (Some l) w)).
  rewrite (ValidateAddress_result l w Hs Hl).
  rewrite (ValidateAddress_calls clock urlOK endpoint unicodeUpper server
             l w Hs Hl).
  fold p. rewrite (GetAddressWithResponse_outcome p w). fold out.
  destruct (fst out); reflexivity.
Qed.

(** X10: [ValidateAddress] returns results only when the address
    endpoint answered with status 200 and a body; the results are then
    exactly one, the translation of that body, and exactly one request
    has left for the endpoint. *)
Theorem ValidateAddress_Ok_only_on_200 (address : option loc)
  (w : Client.World) (results : list ValidationResult.t) :
  fst (ValidateAddress address w) = Ok results ->
  exists l req resp body,
    address = Some l /\
    Client.wire (snd (ValidateAddress address w)) = Client.wire w ++ [req] /\
    server (length (Client.wire w)) req = Client.GetResponse resp /\
    GetAddressResponse.StatusCode resp = 200 /\
    GetAddressResponse.JSON200 resp = Some body /\
    results = [convertResponse body].
Proof.
  intros Hok. destruct address as [l |]; [| discriminate].
  destruct (preconditions_dec (Client.heap w l)) as [[Hs Hl] | Hbad].
  - rewrite (ValidateAddress_accepted l w Hs Hl) in Hok |- *.
    destruct (fst (getToken (Client.token w))) as [token | e];
      [| discriminate].
    cbn [fst snd Client.wire] in Hok |- *.
    destruct (server _ _) as [| resp] eqn:Hsrv; [discriminate |].
    unfold interpret in Hok.
    destruct (Z.eqb_spec (GetAddressResponse.StatusCode resp) 200)
      as [H200 | H200]; cbn [negb] in Hok.
    + destruct (GetAddressResponse.JSON200 resp) as [body |] eqn:Hb;
        [| discriminate].
      injection Hok as <-.
      eexists l, _, resp, body. repeat split; eauto.
    + destruct (firstError resp); discriminate.
  - destruct (ValidateAddress_rejects clock urlOK endpoint unicodeUpper
                server (Some l) w) as [e He]; [right; eauto |].
    rewrite He in Hok. discriminate.
Qed.

(** X11: without a token nothing is asked.  When the token manager
    fails, [ValidateAddress] returns that failure, wrapped twice, and no
    request leaves for the address endpoint. *)
Theorem ValidateAddress_without_token (l : loc) (w : Client.World)
  (e : error) :
  Address.StreetAddress (Client.heap w l) <> "" ->
  String.length (Address.State (Client.heap w l)) = 2%nat ->
  fst (getToken (Client.token w)) = Err e ->
  fst (ValidateAddress (Some l) w) =
    Err (ErrRequestFailed (ErrAccessToken e)) /\
  Client.wire (snd (ValidateAddress (Some l) w)) = Client.wire w.
Proof.
  intros Hs Hl He. rewrite (ValidateAddress_accepted l w Hs Hl), He.
  split; reflexivity.
Qed.

(** X12: every request that leaves for the address endpoint is
    authenticated: its [Authorization] header is ["Bearer "] followed by a
    token that is not empty, the one the token manager holds after the
    call. *)
Theorem address_request_carries_bearer_token (address : option loc)
  (w : Client.World) (req : Client.wireRequest) :
  Client.wire (snd (ValidateAddress address w)) = Client.wire w ++ [req] ->
  exists token,
    token <> "" /\
    Client.authorization req = String.append "Bearer " token /\
    Token.accessToken
      (Token.tm (Client.token (snd (ValidateAddress address w)))) = token.
Proof.
  intros Hw.
  assert (Hno : Client.wire w <> Client.wire w ++ [req]).
  { intros E. apply (f_equal (@length _)) in E.
    rewrite length_app in E. simpl in E. lia. }
  destruct address as [l |]; [| contradiction].
  destruct (preconditions_dec (Client.heap w l)) as [[Hs Hl] | Hbad].
  - rewrite (ValidateAddress_accepted l w Hs Hl) in Hw |- *.
    destruct (fst (getToken (Client.token w))) as [token | e] eqn:Htok;
      cbn [snd Client.wire Client.token] in Hw |- *; [| contradiction].
    apply app_inv_head in Hw. injection Hw as <-.
    exists token. cbn [Client.authorization].
    destruct (getToken_Ok_cached clock urlOK endpoint (Client.token w)
                token Htok) as [Hne Hc].
    repeat split; assumption.
  - destruct (ValidateAddress_rejects clock urlOK endpoint unicodeUpper
                server (Some l) w) as [e He]; [right; eauto |].
    rewrite He in Hw. contradiction.
Qed.

(** X13: one call of [ValidateAddress] sends at most one request to the
    address endpoint and at most one to the token endpoint, and hands at
    most one parameter block to the generated client. *)
Theorem ValidateAddress_sends_at_most_one_of_each (address : option loc)
  (w : Client.World) :
  let w' := snd (ValidateAddress address w) in
  (Client.wire w' = Client.wire w \/
   exists req, Client.wire w' = Client.wire w ++ [req]) /\
  (Token.posts (Client.token w') = Token.posts (Client.token w) \/
   Token.posts (Client.token w') =
     Token.posts (Client.token w) ++
     [Token.buildRequest (Token.tm (Client.token w))]) /\
  (Client.calls w' = Client.calls w \/
   exists p, Client.calls w' = Client.calls w ++ [p]).
Proof.
  intros w'. subst w'.
  assert (Hrej : forall e, ValidateAddress address w = (Err e, w) ->
    (Client.wire (snd (ValidateAddress address w)) = Client.wire w \/
     exists req, Client.wire (snd (ValidateAddress address w)) =
                 Client.wire w ++ [req]) /\
    (Token.posts (Client.token (snd (ValidateAddress address w))) =
       Token.posts (Client.token w) \/
     Token.posts (Client.token (snd (ValidateAddress address w))) =
       Token.posts (Client.token w) ++
       [Token.buildRequest (Token.tm (Client.token w))]) /\
    (Client.calls (snd (ValidateAddress address w)) = Client.calls w \/
     exists p, Client.calls (snd (ValidateAddress address w)) =
               Client.calls w ++ [p])).
  { intros e He. rewrite He. repeat split; now left. }
  destruct address as [l |]; [| now apply (Hrej ErrNilAddress)].
  destruct (preconditions_dec (Client.heap w l)) as [[Hs Hl] | Hbad].
  - clear Hrej. rewrite (ValidateAddress_accepted l w Hs Hl).
    pose proof (getToken_outcome clock urlOK endpoint (Client.token w))
      as Hout.
    assert (Hposts :
      Token.posts (snd (getToken (Client.token w))) =
        Token.posts (Client.token w) \/
      Token.posts (snd (getToken (Client.token w))) =
        Token.posts (Client.token w) ++
        [Token.buildRequest (Token.tm (Client.token w))]).
    { rewrite Hout.
      destruct (Token.valid _ _); [now left |].
      destruct (Token.valid _ _); [now left |].
      destruct (negb _); [now left |].
      destruct (Token.classify _); now right. }
    destruct (fst (getToken (Client.token w)));
      cbn [snd Client.wire Client.token Client.calls];
      (split; [| split; [exact Hposts | right; eauto]]).
    + right; eauto.
    + now left.
  - destruct (ValidateAddress_rejects clock urlOK endpoint unicodeUpper
                server (Some l) w) as [e He]; [right; eauto |].
    now apply (Hrej e).
Qed.

(** X14: how an answer of the address endpoint is turned into the
    result, once a token is at hand.  A transport failure is returned
    wrapped.  A status other than 200 is always an error: the
    translation of the first structured body among those for 400, 401,
    403, 404, 429 and 503, or the bare status when there is none, even
    when a 200-body came along.  Status 200 gives the translated body,
    or an error when the body is missing. *)
Theorem ValidateAddress_answers (l : loc) (w : Client.World)
  (token : string) :
  Address.StreetAddress (Client.heap w l) <> "" ->
  String.length (Address.State (Client.heap w l)) = 2%nat ->
  fst (getToken (Client.token w)) = Ok token ->
  let req :=
    Client.mkWireRequest
      (queryOf (Client.heap w) (paramsOf upper l (Client.heap w l)))
      (String.append "Bearer " token) in
  let answer := server (length (Client.wire w)) req in
  let result := fst (ValidateAddress (Some l) w) in
  (answer = Client.GetError ->
   result = Err (ErrRequestFailed ErrTransport)) /\
  (forall resp,
      answer = Client.GetResponse resp ->
      GetAddressResponse.StatusCode resp <> 200 ->
      result =
        match firstError resp with
        | Some m => Err (ErrAPI (convertError (Some m)))
        | None =>
            Err (ErrUnexpectedStatus (GetAddressResponse.StatusCode resp))
        end) /\
  (forall resp,
      answer = Client.GetResponse resp ->
      GetAddressResponse.StatusCode resp = 200 ->
      result =
        match GetAddressResponse.JSON200 resp with
        | Some body => Ok [convertResponse body]
        | None => Err ErrEmptyResponse
        end).
Proof.
  intros Hs Hl Htok req answer result. subst result.
  rewrite (ValidateAddress_accepted l w Hs Hl), Htok.
  cbn [fst]. fold req. fold answer.
  split; [| split].
  - intros ->. reflexivity.
  - intros resp -> Hne. unfold interpret.
    destruct (Z.eqb_spec (GetAddressResponse.StatusCode resp) 200);
      [contradiction | reflexivity].
  - intros resp -> He. unfold interpret. rewrite He. reflexivity.
Qed.

End MoreClientCalls.

Lemma ValidateAddress_Ok_only_on_200_witness :
  exists l req resp body,
    Some 0%nat = Some l /\
    Client.wire
      (snd (Client.ValidateAddress (fun _ => 2000) (fun _ => true)
              (fun _ _ => Token.DoError) (fun s => s)
              (fun _ _ => Client.GetResponse sampleOK) (Some 0%nat)
              sampleClientWorld))
    = [] ++ [req] /\
    Client.GetResponse sampleOK = Client.GetResponse resp /\
    GetAddressResponse.StatusCode resp = 200 /\
    GetAddressResponse.JSON200 resp = Some body /\
    [convertResponse sampleResponse] = [convertResponse body].
Proof.
  apply (ValidateAddress_Ok_only_on_200 (fun _ => 2000) (fun _ => true)
           (fun _ _ => Token.DoError) (fun s => s)
           (fun _ _ => Client.GetResponse sampleOK) (Some 0%nat)
           sampleClientWorld [convertResponse sampleResponse]).
  vm_compute. reflexivity.
Defined.

Lemma ValidateAddress_without_token_witness :
  fst (Client.ValidateAddress (fun _ => 2000) (fun _ => true)
         (fun _ _ => Token.DoError) (fun s => s)
         (fun _ _ => Client.GetResponse sampleOK) (Some 0%nat)
         coldClientWorld)
  = Err (ErrRequestFailed (ErrAccessToken ErrTokenDo)) /\
  Client.wire
    (snd (Client.ValidateAddress (fun _ => 2000) (fun _ => true)
            (fun _ _ => Token.DoError) (fun s => s)
            (fun _ _ => Client.GetResponse sampleOK) (Some 0%nat)
            coldClientWorld))
  = [].
Proof.
  apply (ValidateAddress_without_token (fun _ => 2000) (fun _ => true)
           (fun _ _ => Token.DoError) (fun s => s)
           (fun _ _ => Client.GetResponse sampleOK) 0%nat coldClientWorld
           ErrTokenDo).
  - discriminate.
  - reflexivity.
  - reflexivity.
Defined.

Lemma address_request_carries_bearer_token_witness :
  exists token,
    token <> "" /\
    Client.authorization sampleRequest = String.append "Bearer " token /\
    Token.accessToken
      (Token.tm
         (Client.token
            (snd (Client.ValidateAddress (fun _ => 2000) (fun _ => true)
                    (fun _ _ => Token.DoError) (fun s => s)
                    (fun _ _ => Client.GetResponse sampleOK) (Some 0%nat)
                    sampleClientWorld)))) = token.
Proof.
  apply (address_request_carries_bearer_token (fun _ => 2000)
           (fun _ => true) (fun _ _ => Token.DoError) (fun s => s)
           (fun _ _ => Client.GetResponse sampleOK) (Some 0%nat)
           sampleClientWorld sampleRequest).
  vm_compute. reflexivity.
Defined.

Lemma ValidateAddress_answers_witness :
  fst (Client.ValidateAddress (fun _ => 2000) (fun _ => true)
         (fun _ _ => Token.DoError) (fun s => s)
         (fun _ _ => Client.GetResponse sampleDenied) (Some 0%nat)
         sampleClientWorld)
  = Err (ErrAPI
           (convertError (Some (ErrorMessage.mk (Some sampleUnauthorized))))).
Proof.
  destruct (ValidateAddress_answers (fun _ => 2000) (fun _ => true)
              (fun _ _ => Token.DoError) (fun s => s)
              (fun _ _ => Client.GetResponse sampleDenied) 0%nat
              sampleClientWorld "T") as (_ & H & _).
  - discriminate.
  - reflexivity.
  - reflexivity.
  - apply (H sampleDenied); [reflexivity | discriminate].
Defined.

(** ** client.go: the translator, further *)

Lemma convertMatches_filter (ms : list CodeText.t) :
  forall acc,
    convertMatches ms acc = acc ++ map toMatch (List.filter keepEntry ms).
Proof.
  induction ms as [| m ms IH]; intros acc; simpl.
  - now rewrite app_nil_r.
  - fold (keepEntry m). destruct (keepEntry m); rewrite IH; simpl.
    + now rewrite <- app_assoc.
    + reflexivity.
Qed.

Lemma convertCorrections_filter (dpv : string) (has : bool)
  (cs : list CodeText.t) :
  forall acc,
    convertCorrections dpv has cs acc =
    acc ++ map (toCorrection dpv has) (List.filter keepEntry cs).
Proof.
  induction cs as [| c cs IH]; intros acc; simpl.
  - now rewrite app_nil_r.
  - fold (keepEntry c). destruct (keepEntry c); rewrite IH; simpl.
    + now rewrite <- app_assoc.
    + reflexivity.
Qed.

Lemma reportedDPV_convertResponse (resp : AddressResponse.t) :
  reportedDPV (convertResponse resp) = dpvConfirmationOf resp.
Proof.
  unfold reportedDPV, dpvConfirmationOf, convertResponse. simpl.
  destruct (AddressResponse.AdditionalInfo resp) as [info |]; simpl;
    [| reflexivity].
  destruct (AddressAdditionalInfo.DPVConfirmation info); reflexivity.
Qed.

Lemma hasSecondary_convertResponse (resp : AddressResponse.t) :
  hasSecondaryAddressOf resp =
  negb (String.eqb
          (Address.SecondaryAddress
             (ValidationResult.Address (convertResponse resp))) "").
Proof.
  unfold hasSecondaryAddressOf, convertResponse. simpl.
  destruct (AddressResponse.Address resp) as [addr |]; simpl;
    [| reflexivity].
  destruct (DomesticAddress.SecondaryAddress addr); reflexivity.
Qed.

(** X15: the matches and the corrections of a result are the provider's
    entries in their order, without those whose code and text are both
    empty or missing; nothing else is dropped, nothing is reordered. *)
Theorem convertResponse_drops_blank_entries (resp : AddressResponse.t) :
  ValidationResult.Matches (convertResponse resp) =
    map toMatch
      (List.filter keepEntry (default [] (AddressResponse.Matches resp))) /\
  ValidationResult.Corrections (convertResponse resp) =
    map (toCorrection (dpvConfirmationOf resp) (hasSecondaryAddressOf resp))
      (List.filter keepEntry
         (default [] (AddressResponse.Corrections resp))).
Proof.
  unfold convertResponse. simpl. split.
  - destruct (AddressResponse.Matches resp) as [ms |]; simpl;
      [apply convertMatches_filter | reflexivity].
  - destruct (AddressResponse.Corrections resp) as [cs |]; simpl;
      [apply convertCorrections_filter | reflexivity].
Qed.

(** X16: the user message of every correction can be recomputed from the
    returned result alone: it is [generateUserMessage] of the
    correction's own code and text, the DPV confirmation the result
    reports, and whether the result's address has a secondary address.
    So it is the correction's text or the fixed clarifying string, and
    it is the text whenever the code is not ["32"] or the result's
    address has no secondary address. *)
Theorem user_message_is_a_function_of_the_result (resp : AddressResponse.t)
  (c : Correction.t) :
  let v := convertResponse resp in
  In c (ValidationResult.Corrections v) ->
  let secondary := Address.SecondaryAddress (ValidationResult.Address v) in
  Correction.UserMessage c =
    generateUserMessage (Correction.Code c) (Correction.Text c)
      (reportedDPV v) (negb (String.eqb secondary "")) /\
  (Correction.UserMessage c = Correction.Text c \/
   Correction.UserMessage c = clarifyingMessage) /\
  (Correction.Code c <> "32" \/ secondary = "" ->
   Correction.UserMessage c = Correction.Text c).
Proof.
  intros v Hin secondary.
  assert (Hgen : Correction.UserMessage c =
                 generateUserMessage (Correction.Code c) (Correction.Text c)
                   (reportedDPV v) (negb (String.eqb secondary ""))).
  { subst v secondary.
    rewrite reportedDPV_convertResponse, <- hasSecondary_convertResponse.
    unfold convertResponse in Hin. simpl in Hin.
    destruct (AddressResponse.Corrections resp) as [cs |]; [| destruct Hin].
    rewrite convertCorrections_filter in Hin. simpl in Hin.
    apply in_map_iff in Hin as (e & <- & _). reflexivity. }
  split; [exact Hgen |]. rewrite Hgen. unfold generateUserMessage. split.
  - destruct (String.eqb (Correction.Code c) "32"); [| now left].
    destruct (String.eqb (reportedDPV v) "D"); [now left |].
    destruct (String.eqb (reportedDPV v) "S" && _); [now right | now left].
  - intros [Hcode | Hsec].
    + apply String.eqb_neq in Hcode. now rewrite Hcode.
    + rewrite Hsec. simpl. rewrite andb_false_r.
      destruct (String.eqb (Correction.Code c) "32"); [| reflexivity].
      destruct (String.eqb (reportedDPV v) "D"); reflexivity.
Qed.

Lemma user_message_is_a_function_of_the_result_witness :
  let c := Correction.mk "32" "Default address" clarifyingMessage in
  let v := convertResponse sampleResponse in
  Correction.UserMessage c =
    generateUserMessage (Correction.Code c) (Correction.Text c)
      (reportedDPV v)
      (negb (String.eqb
               (Address.SecondaryAddress (ValidationResult.Address v)) "")) /\
  (Correction.UserMessage c = Correction.Text c \/
   Correction.UserMessage c = clarifyingMessage) /\
  (Correction.Code c <> "32" \/
   Address.SecondaryAddress (ValidationResult.Address v) = "" ->
   Correction.UserMessage c = Correction.Text c).
Proof.
  intros c v.
  apply (user_message_is_a_function_of_the_result sampleResponse c).
  simpl. left. reflexivity.
Defined.

(** X17: when the provider's answer has no address, the address of the
    result is empty in every field, the firm included even if the answer
    names one, and no correction gets the clarifying message; when it has
    an address, the firm of the result is the answer's firm. *)
Theorem convertResponse_without_address (resp : AddressResponse.t) :
  (AddressResponse.Address resp = None ->
   ValidationResult.Address (convertResponse resp) = Address.zero /\
   forall c, In c (ValidationResult.Corrections (convertResponse resp)) ->
             Correction.UserMessage c = Correction.Text c) /\
  (AddressResponse.Address resp <> None ->
   Address.Firm (ValidationResult.Address (convertResponse resp)) =
   stringValue (AddressResponse.Firm resp)).
Proof.
  split.
  - intros Hnone. split.
    + unfold convertResponse. simpl. now rewrite Hnone.
    + intros c Hin. unfold convertResponse in Hin. simpl in Hin.
      destruct (AddressResponse.Corrections resp) as [cs |];
        [| destruct Hin].
      rewrite convertCorrections_filter in Hin. simpl in Hin.
      apply in_map_iff in Hin as (e & <- & _).
      unfold toCorrection, hasSecondaryAddressOf. rewrite Hnone. simpl.
      unfold generateUserMessage. rewrite andb_false_r.
      destruct (String.eqb _ "32"); [| reflexivity].
      destruct (String.eqb _ "D"); reflexivity.
  - intros Hsome. unfold convertResponse. simpl.
    destruct (AddressResponse.Address resp); [reflexivity | congruence].
Qed.

Lemma convertResponse_without_address_witness :
  ValidationResult.Address
    (convertResponse
       (AddressResponse.mk None (Some "ACME") None None None None))
  = Address.zero.
Proof.
  apply (proj1 (convertResponse_without_address
                  (AddressResponse.mk None (Some "ACME") None None None
                     None))).
  reflexivity.
Defined.

(** ** types.go and [convertError], further *)

Lemma Error_nonempty (e : Error.t) : Error.Error e <> "".
Proof.
  unfold Error.Error.
  destruct (String.eqb_spec (Error.Detail e) ""); simpl; [| assumption].
  destruct (String.eqb_spec (Error.Title e) ""); simpl;
    [discriminate | assumption].
Qed.

(** X18: the message of an [Error] is never empty, and [convertError]
    always fills [Status] with the same string as [Code]; so the message
    of a translated provider error is never empty either, whatever the
    provider left out. *)
Theorem Error_message_is_never_empty :
  (forall e : Error.t, Error.Error e <> "") /\
  (forall errResp : option ErrorMessage.t,
      Error.Status (convertError errResp) =
      Error.Code (convertError errResp) /\
      Error.Error (convertError errResp) <> "").
Proof.
  split; [exact Error_nonempty |].
  intros errResp. split; [| apply Error_nonempty].
  destruct errResp as [[[e |]] |]; try reflexivity.
  destruct e as [code message errors]. simpl.
  destruct code, message, errors as [[| [title detail source] rest] |];
    simpl; try reflexivity;
    destruct title, detail, source; reflexivity.
Qed.

(** X19: what a translated provider error prints.  A nil answer prints
    ["Unknown error"]; an answer whose first sub-error has a detail that
    is not empty prints that detail; an answer without sub-errors prints
    the top-level message when that is not empty, and ["USPS API error"]
    when the message is empty or missing. *)
Theorem convertError_message (e : ErrorMessage.inner) :
  Error.Error (convertError None) = "Unknown error" /\
  Error.Error (convertError (Some (ErrorMessage.mk None))) = "Unknown error" /\
  (forall first rest detail,
      ErrorMessage.Errors e = Some (first :: rest) ->
      ErrorMessage.Detail first = Some detail -> detail <> "" ->
      Error.Error (convertError (Some (ErrorMessage.mk (Some e)))) = detail) /\
  (ErrorMessage.Errors e = None \/ ErrorMessage.Errors e = Some [] ->
   Error.Error (convertError (Some (ErrorMessage.mk (Some e)))) =
     if String.eqb (stringValue (ErrorMessage.Message e)) ""
     then "USPS API error"
     else stringValue (ErrorMessage.Message e)).
Proof.
  split; [reflexivity |]. split; [reflexivity |].
  destruct e as [code message errors]. simpl. split.
  - intros first rest detail -> Hd Hne.
    destruct first as [title detail' source]. simpl in Hd. subst detail'.
    apply String.eqb_neq in Hne.
    destruct code, message, title, source; unfold Error.Error; simpl;
      rewrite Hne; reflexivity.
  - intros [-> | ->]; destruct code, message as [msg |];
      unfold Error.Error; simpl; try reflexivity;
      destruct (String.eqb msg ""); reflexivity.
Qed.

Lemma convertError_message_witness :
  Error.Error
    (convertError (Some (ErrorMessage.mk (Some sampleUnauthorized))))
  = "The access token has expired".
Proof.
  destruct (convertError_message sampleUnauthorized) as (_ & _ & H & _).
  apply (H (ErrorMessage.mkItem (Some "Invalid token")
              (Some "The access token has expired") None) []);
    [reflexivity | reflexivity | discriminate].
Defined.

(** ** config.go and [NewClient] *)

Lemma Validate_None_iff (c : Config.t) :
  Config.Validate c = None <->
  Config.ClientID c <> "" /\ Config.ClientSecret c <> "".
Proof.
  unfold Config.Validate.
  destruct (String.eqb_spec (Config.ClientID c) "") as [Hi | Hi];
    [| destruct (String.eqb_spec (Config.ClientSecret c) "") as [Hs | Hs]].
  - split; [discriminate | intros [H _]; contradiction].
  - split; [discriminate | intros [_ H]; contradiction].
  - split; [intros _; split; assumption | reflexivity].
Qed.

Lemma setDefaults_fields (c : Config.t) :
  Config.setDefaults c =
    Config.mk (Config.ClientID c) (Config.ClientSecret c)
      (if String.eqb (Config.ServerURL c) ""
       then "https://apis.usps.com/addresses/v3" else Config.ServerURL c)
      (if String.eqb (Config.TokenURL c) ""
       then "https://apis.usps.com/oauth2/v3/token" else Config.TokenURL c).
Proof.
  destruct c as [cid secret server token]. unfold Config.setDefaults.
  cbn [Config.ServerURL Config.TokenURL Config.ClientID Config.ClientSecret].
  destruct (String.eqb server ""); cbn [Config.TokenURL Config.ServerURL
    Config.ClientID Config.ClientSecret];
    destruct (String.eqb token ""); reflexivity.
Qed.

(** X20: [Validate] accepts a configuration exactly when the client id
    and the client secret are both not empty.  The error it returns
    otherwise has the title ["Invalid configuration"] and prints
    ["ClientID is required"] when the client id is empty, also when the
    secret is empty too, and ["ClientSecret is required"] otherwise. *)
Theorem Validate_requires_both_credentials (c : Config.t) :
  (Config.Validate c = None <->
   Config.ClientID c <> "" /\ Config.ClientSecret c <> "") /\
  (forall e, Config.Validate c = Some e ->
     Error.Title e = "Invalid configuration" /\
     Error.Error e =
       if String.eqb (Config.ClientID c) "" then "ClientID is required"
       else "ClientSecret is required").
Proof.
  split; [apply Validate_None_iff |].
  unfold Config.Validate.
  destruct (String.eqb (Config.ClientID c) "");
    [| destruct (String.eqb (Config.ClientSecret c) "")];
    intros e He; try discriminate;
    injection He as <-; split; reflexivity.
Qed.

Lemma Validate_requires_both_credentials_witness :
  Error.Title
    {| Error.Status := ""; Error.Code := "";
       Error.Title := "Invalid configuration";
       Error.Detail := "ClientID is required"; Error.Source := None |}
  = "Invalid configuration" /\
  Error.Error
    {| Error.Status := ""; Error.Code := "";
       Error.Title := "Invalid configuration";
       Error.Detail := "ClientID is required"; Error.Source := None |}
  = "ClientID is required".
Proof.
  apply (proj2 (Validate_requires_both_credentials (Config.mk "" "" "" ""))).
  reflexivity.
Defined.

(** X21: [setDefaults] fills an empty server URL and an empty token URL
    with the production endpoints and changes nothing else: the
    credentials and the URLs that were given stay, both URLs are set
    afterwards, and a second call changes nothing. *)
Theorem setDefaults_fills_only_empty_urls (c : Config.t) :
  let c' := Config.setDefaults c in
  Config.ClientID c' = Config.ClientID c /\
  Config.ClientSecret c' = Config.ClientSecret c /\
  Config.ServerURL c' =
    (if String.eqb (Config.ServerURL c) ""
     then "https://apis.usps.com/addresses/v3" else Config.ServerURL c) /\
  Config.TokenURL c' =
    (if String.eqb (Config.TokenURL c) ""
     then "https://apis.usps.com/oauth2/v3/token" else Config.TokenURL c) /\
  Config.ServerURL c' <> "" /\ Config.TokenURL c' <> "" /\
  Config.setDefaults c' = c'.
Proof.
  intros c'. subst c'. rewrite (setDefaults_fields (Config.setDefaults c)).
  rewrite !setDefaults_fields.
  cbn [Config.ServerURL Config.TokenURL Config.ClientID Config.ClientSecret].
  destruct (String.eqb_spec (Config.ServerURL c) "") as [Hs | Hs];
    destruct (String.eqb_spec (Config.TokenURL c) "") as [Ht | Ht];
    cbn [String.eqb Ascii.eqb Bool.eqb];
    rewrite ?(proj2 (String.eqb_neq _ _) Hs),
      ?(proj2 (String.eqb_neq _ _) Ht);
    repeat split; try discriminate; assumption.
Qed.

(** X22: [NewClient] fails with the error of [Validate] exactly when
    that rejects the configuration, before anything else is made.  The
    client it creates keeps the configuration with the defaults filled
    in, and its token manager is fresh: the given credentials, the token
    URL given or else the production one, a refresh buffer of 5 minutes
    and no token. *)
Theorem NewClient_validates_then_defaults (generated : string -> bool)
  (c : Config.t) :
  (forall e, Config.Validate c = Some e <->
             Construct.NewClient generated c = Construct.ConfigError e) /\
  (forall client,
      Construct.NewClient generated c = Construct.Created client ->
      Config.ClientID c <> "" /\ Config.ClientSecret c <> "" /\
      Construct.config client = Config.setDefaults c /\
      Construct.tokenManager client =
        {| Token.clientID := Config.ClientID c;
           Token.clientSecret := Config.ClientSecret c;
           Token.tokenURL :=
             if String.eqb (Config.TokenURL c) ""
             then "https://apis.usps.com/oauth2/v3/token"
             else Config.TokenURL c;
           Token.accessToken := "";
           Token.expiresAt := Token.zeroTime;
           Token.refreshBuffer := 5 * Minute |}).
Proof.
  unfold Construct.NewClient.
  destruct (Config.Validate c) as [err |] eqn:Hv.
  - split; [| discriminate].
    intros e. split; intros [= ->]; reflexivity.
  - split.
    + intros e. split; [discriminate |].
      destruct (generated _); discriminate.
    + intros client. destruct (generated _); [| discriminate].
      intros [= <-]. cbn [Construct.config Construct.tokenManager].
      destruct (proj1 (Validate_None_iff c) Hv) as [H1 H2].
      rewrite setDefaults_fields. unfold Token.newTokenManager.
      cbn [Config.ServerURL Config.TokenURL Config.ClientID
           Config.ClientSecret].
      repeat split; assumption.
Qed.

Lemma NewClient_validates_then_defaults_witness :
  Config.ClientID sampleConfig <> "" /\
  Config.ClientSecret sampleConfig <> "" /\
  Construct.config
    (Construct.mkClient (Config.setDefaults sampleConfig) sampleManager)
  = Config.setDefaults sampleConfig /\
  Construct.tokenManager
    (Construct.mkClient (Config.setDefaults sampleConfig) sampleManager)
  = {| Token.clientID := "id";
       Token.clientSecret := "secret";
       Token.tokenURL := "https://apis.usps.com/oauth2/v3/token";
       Token.accessToken := "";
       Token.expiresAt := Token.zeroTime;
       Token.refreshBuffer := 5 * Minute |}.
Proof.
  apply (proj2 (NewClient_validates_then_defaults (fun _ => true)
                  sampleConfig)).
  reflexivity.
Defined.



(** ** The state that is sent *)

Lemma isLower_upperByte (c : ascii) : isLower (upperByte c) = false.
Proof. destruct c as [[] [] [] [] [] [] [] []]; reflexivity. Qed.

Lemma upperByte_not_lower (c : ascii) :
  isLower c = false -> upperByte c = c.
Proof. unfold upperByte. now intros ->. Qed.

Lemma mapBytes_upper_length (s : string) :
  String.length (mapBytes upperByte s) = String.length s.
Proof. induction s as [| c s IH]; simpl; [reflexivity | now rewrite IH]. Qed.

Lemma mapBytes_upper_hasLower (s : string) :
  hasLower (mapBytes upperByte s) = false.
Proof.
  induction s as [| c s IH]; simpl; [reflexivity |].
  now rewrite isLower_upperByte, IH.
Qed.

Lemma mapBytes_upper_id (s : string) :
  hasLower s = false -> mapBytes upperByte s = s.
Proof.
  induction s as [| c s IH]; simpl; [reflexivity |].
  intros H. apply orb_false_iff in H as [Hc Hs].
  now rewrite (upperByte_not_lower c Hc), IH.
Qed.

(** X24: for a state of two ASCII bytes, the state in the parameter
    block handed to the generated client still has two bytes, none of
    them a lower-case letter, and it is the caller's state unchanged when
    that had no lower-case letter. *)
Theorem ascii_state_is_sent_in_upper_case
  (clock : nat -> Time) (urlOK : string -> bool)
  (endpoint : nat -> Token.tokenRequest -> Token.httpResult)
  (unicodeUpper : string -> string)
  (server : nat -> Client.wireRequest -> Client.getResult)
  (l : loc) (w : Client.World) :
  Address.StreetAddress (Client.heap w l) <> "" ->
  String.length (Address.State (Client.heap w l)) = 2%nat ->
  isASCII (Address.State (Client.heap w l)) = true ->
  let w' :=
    snd (Client.ValidateAddress clock urlOK endpoint unicodeUpper server
           (Some l) w) in
  exists p,
    Client.calls w' = Client.calls w ++ [p] /\
    String.length (GetAddressParams.State p) = 2%nat /\
    hasLower (GetAddressParams.State p) = false /\
    (hasLower (Address.State (Client.heap w l)) = false ->
     GetAddressParams.State p = Address.State (Client.heap w l)).
Proof.
  intros Hs Hl Hascii w'. subst w'.
  rewrite (ValidateAddress_calls clock urlOK endpoint unicodeUpper server
             l w Hs Hl).
  destruct (GetAddressWithResponse_effect clock urlOK endpoint server
              (paramsOf (ToUpper unicodeUpper) l (Client.heap w l)) w)
    as (_ & Hc & _).
  eexists. split; [exact Hc |].
  cbn [paramsOf GetAddressParams.State]. unfold ToUpper. rewrite Hascii.
  split; [now rewrite mapBytes_upper_length |].
  split; [apply mapBytes_upper_hasLower | apply mapBytes_upper_id].
Qed.

Lemma ascii_state_is_sent_in_upper_case_witness :
  let w' :=
    snd (Client.ValidateAddress (fun _ => 2000) (fun _ => true)
           (fun _ _ => Token.DoError) (fun s => s)
           (fun _ _ => Client.GetError) (Some 0%nat) sampleClientWorld) in
  exists p,
    Client.calls w' = [] ++ [p] /\
    String.length (GetAddressParams.State p) = 2%nat /\
    hasLower (GetAddressParams.State p) = false /\
    (hasLower "dc" = false -> GetAddressParams.State p = "dc").
Proof.
  apply (ascii_state_is_sent_in_upper_case (fun _ => 2000) (fun _ => true)
           (fun _ _ => Token.DoError) (fun s => s)
           (fun _ _ => Client.GetError) 0%nat sampleClientWorld);
    [discriminate | reflexivity | reflexivity].
Defined.
